(** * The JOS kernel monitor (kern/monitor.c)

    A shallow embedding of the command-line kernel monitor: the command
    handlers ([mon_help], [mon_kerninfo], [mon_backtrace], [mon_chcolor],
    [mon_continue], [mon_si]) and the command interpreter ([runcmd]).

    C objects are modelled as follows.
    - [unsigned] and [uint32_t] values are [Z] with the wrap-around
      written out ([wrap32]); [int16_t] is [Z] through [int16].
    - Characters are [ascii]; a C string is the [list ascii] of its
      characters, its terminating NUL being implicit at index [length].
    - The monitor's side effects are threaded through a small state and
      error monad [M] over the record [World]: console output is a trace
      of calls to the external [cprintf], the global [CGA_COLOR_MASK] is a
      field, the trap frames reachable through a [struct Trapframe *] live
      in a store indexed by address, and kernel memory is a finite map
      from byte addresses to the 32-bit word loaded there. *)

From Stdlib Require Import ZArith Ascii String List Lia.
From stdpp Require Import base numbers option list gmap.
From Equations Require Import Equations.

Local Open Scope Z_scope.

(** ** Machine integers *)

Definition wrap32 (z : Z) : Z := z mod 2 ^ 32.

(** Conversion to [int16_t] (two's complement, as gcc does it). *)
Definition int16 (z : Z) : Z := (z + 2 ^ 15) mod 2 ^ 16 - 2 ^ 15.

(** Conversion to [int] and [ptrdiff_t] (32 bits, two's complement). *)
Definition int32 (z : Z) : Z := (z + 2 ^ 31) mod 2 ^ 32 - 2 ^ 31.

(** ** Characters and C strings *)

Definition NUL : ascii := "000"%char.

Abbreviation cstring := (list ascii) (only parsing).

Definition lit (s : string) : cstring := list_ascii_of_string s.

Definition nl : string := String "010"%char EmptyString.

(** [s[i]] for a C string: the characters, then the terminating NUL;
    further indices lie outside the object. *)
Definition cstr_get (s : cstring) (i : nat) : option ascii :=
  match s !! i with
  | Some c => Some c
  | None => if Nat.eqb i (length s) then Some NUL else None
  end.

Definition char_eqb (a b : ascii) : bool := Ascii.eqb a b.

(** [strchr(s, c) != NULL], for a character [c] other than NUL (the only
    way [runcmd] calls it): [c] occurs in [s]. *)
Definition strchr (s : cstring) (c : ascii) : bool := existsb (char_eqb c) s.

Definition cstr_eqb (a b : cstring) : bool :=
  if decide (a = b) then true else false.

(** ** The execution context *)

Record PushRegs := {
  reg_edi : Z; reg_esi : Z; reg_ebp : Z; reg_oesp : Z;
  reg_ebx : Z; reg_edx : Z; reg_ecx : Z; reg_eax : Z
}.

(** Modelled from the spec: [struct Trapframe] is declared in inc/trap.h,
    which is not among the sources.  The spec describes the execution
    context as the saved CPU state (registers, flags, instruction
    pointer) with a flags register holding the single-step control bit;
    the fields below are that saved state.  The monitor itself only ever
    names [tf_eflags]. *)
Record Trapframe := {
  tf_regs : PushRegs;
  tf_es : Z; tf_ds : Z;
  tf_trapno : Z; tf_err : Z;
  tf_eip : Z; tf_cs : Z;
  tf_eflags : Z;
  tf_esp : Z; tf_ss : Z
}.

Definition set_tf_eflags (v : Z) (t : Trapframe) : Trapframe :=
  {| tf_regs := tf_regs t; tf_es := tf_es t; tf_ds := tf_ds t;
     tf_trapno := tf_trapno t; tf_err := tf_err t;
     tf_eip := tf_eip t; tf_cs := tf_cs t;
     tf_eflags := v;
     tf_esp := tf_esp t; tf_ss := tf_ss t |}.

(** Debug information filled in by the external [debuginfo_eip]
    ([struct Eipdebuginfo], kern/kdebug.h): the fields the monitor reads. *)
Record Eipdebuginfo := {
  eip_file : cstring;
  eip_line : Z;
  eip_fn_name : cstring;
  eip_fn_namelen : Z;
  eip_fn_addr : Z
}.

(** ** Effects *)

Inductive Arg :=
| AInt (z : Z)
| AStr (s : cstring).

(** Calls to the external collaborators, in program order. *)
Inductive Event :=
| Cprintf (fmt : string) (args : list Arg)
| EnvPopTf (tf : Z) (ctx : Trapframe).

Inductive Fault :=
| PageFault (addr : Z)
| BadTrapframe (tf : Z)
| BadArgv (i : nat)
| OobRead (object : string) (i : Z)
| OobWrite (object : string) (i : Z).

(** Why a computation did not return to its caller. *)
Inductive Stop :=
| Resumed
| Faulted (f : Fault)
| OutOfFuel.

Inductive Res (A : Type) :=
| Val (a : A)
| Halt (s : Stop).
Arguments Val {A} a.
Arguments Halt {A} s.

Record World := {
  w_out : list Event;
  w_cga : Z;
  w_tfs : gmap Z Trapframe;
  w_mem : gmap Z Z;
  w_ebp : Z
}.

Definition M (A : Type) : Type := World -> Res A * World.

Definition ret {A} (a : A) : M A := fun w => (Val a, w).

Definition bind {A B} (m : M A) (k : A -> M B) : M B :=
  fun w => match m w with
           | (Val a, w') => k a w'
           | (Halt s, w') => (Halt s, w')
           end.

Definition halt {A} (s : Stop) : M A := fun w => (Halt s, w).

Notation "'do' x <- m ; k" := (bind m (fun x => k))
  (at level 10, x name, m at level 100, k at level 200).
Notation "m ;; k" := (bind m (fun _ => k))
  (at level 100, k at level 200, right associativity).

Definition emit (e : Event) : M unit :=
  fun w => (Val tt,
            {| w_out := w_out w ++ [e]; w_cga := w_cga w; w_tfs := w_tfs w;
               w_mem := w_mem w; w_ebp := w_ebp w |}).

Definition cprintf (fmt : string) (args : list Arg) : M unit :=
  emit (Cprintf fmt args).

Definition set_CGA_COLOR_MASK (v : Z) : M unit :=
  fun w => (Val tt,
            {| w_out := w_out w; w_cga := v; w_tfs := w_tfs w;
               w_mem := w_mem w; w_ebp := w_ebp w |}).

(** [*tf] as an rvalue. *)
Definition load_tf (tf : Z) : M Trapframe :=
  fun w => match w_tfs w !! tf with
           | Some t => (Val t, w)
           | None => (Halt (Faulted (BadTrapframe tf)), w)
           end.

(** [*tf = t]. *)
Definition store_tf (tf : Z) (t : Trapframe) : M unit :=
  fun w => match w_tfs w !! tf with
           | Some _ =>
               (Val tt,
                {| w_out := w_out w; w_cga := w_cga w;
                   w_tfs := <[tf := t]> (w_tfs w);
                   w_mem := w_mem w; w_ebp := w_ebp w |})
           | None => (Halt (Faulted (BadTrapframe tf)), w)
           end.

(** The external resume primitive: it restores the CPU from [*tf] and does
    not return. *)
Definition env_pop_tf (tf : Z) : M unit :=
  do t <- load_tf tf;
  emit (EnvPopTf tf t);;
  halt Resumed.

(** [*(unsigned * ) a]. *)
Definition load32 (a : Z) : M Z :=
  fun w => match w_mem w !! a with
           | Some v => (Val v, w)
           | None => (Halt (Faulted (PageFault a)), w)
           end.

Definition read_ebp : M Z := fun w => (Val (w_ebp w), w).

(** [argv[i]]. *)
Definition argv_get (argv : list cstring) (i : nat) : M cstring :=
  match argv !! i with
  | Some s => ret s
  | None => halt (Faulted (BadArgv i))
  end.

(** [s[i]] read through a [char *]. *)
Definition char_at (object : string) (s : cstring) (i : nat) : M ascii :=
  match cstr_get s i with
  | Some c => ret c
  | None => halt (Faulted (OobRead object (Z.of_nat i)))
  end.

(** ** The tokenizer of [runcmd]

    The line buffer is the array of its characters, its terminating NUL
    sitting at index [length]; [buf] is an index into it.  The scan never
    moves past a NUL, so no read goes beyond the terminator. *)

Definition MAXARGS : Z := 16.
Definition WHITESPACE : cstring := ["009"; "013"; "010"; " "]%char.

(** [*buf]. *)
Definition peek (mem : list ascii) (p : nat) : ascii := default NUL (mem !! p).

(** [*buf && strchr(WHITESPACE, *buf)]. *)
Definition at_space (mem : list ascii) (p : nat) : bool :=
  negb (char_eqb (peek mem p) NUL) && strchr WHITESPACE (peek mem p).

(** [*buf && !strchr(WHITESPACE, *buf)]. *)
Definition at_arg (mem : list ascii) (p : nat) : bool :=
  negb (char_eqb (peek mem p) NUL) && negb (strchr WHITESPACE (peek mem p)).

Definition inspect {A} (a : A) : {b : A | a = b} := exist _ a eq_refl.

Lemma peek_nonNUL_lt mem p : char_eqb (peek mem p) NUL = false -> (p < length mem)%nat.
Proof.
  unfold peek. destruct (mem !! p) eqn:E; simpl.
  - intros _. eapply lookup_lt_Some; eauto.
  - discriminate.
Qed.

Lemma at_space_lt mem p : at_space mem p = true -> (p < length mem)%nat.
Proof.
  unfold at_space. intros H. apply andb_prop in H as [H _].
  apply peek_nonNUL_lt. now destruct (char_eqb (peek mem p) NUL).
Qed.

Lemma at_arg_lt mem p : at_arg mem p = true -> (p < length mem)%nat.
Proof.
  unfold at_arg. intros H. apply andb_prop in H as [H _].
  apply peek_nonNUL_lt. now destruct (char_eqb (peek mem p) NUL).
Qed.

(** [while ( *buf && strchr(WHITESPACE, *buf)) *buf++ = 0;] *)
Equations? gobble (mem : list ascii) (p : nat) : list ascii * nat
  by wf (length mem - p)%nat lt :=
  gobble mem p with inspect (at_space mem p) => {
    | exist _ true _ => gobble (<[p := NUL]> mem) (S p)
    | exist _ false _ => (mem, p) }.
Proof.
  rewrite length_insert. apply at_space_lt in e. lia.
Qed.

(** [while ( *buf && !strchr(WHITESPACE, *buf)) buf++;] *)
Equations? scan (mem : list ascii) (p : nat) : nat
  by wf (length mem - p)%nat lt :=
  scan mem p with inspect (at_arg mem p) => {
    | exist _ true _ => scan mem (S p)
    | exist _ false _ => p }.
Proof.
  apply at_arg_lt in e. lia.
Qed.

Lemma gobble_step mem p :
  gobble mem p =
  if at_space mem p then gobble (<[p := NUL]> mem) (S p) else (mem, p).
Proof. funelim (gobble mem p); rewrite e; reflexivity. Qed.

Lemma scan_step mem p :
  scan mem p = if at_arg mem p then scan mem (S p) else p.
Proof. funelim (scan mem p); rewrite e; reflexivity. Qed.

Lemma gobble_length mem p : length (gobble mem p).1 = length mem.
Proof.
  funelim (gobble mem p); [|reflexivity].
  rewrite H, length_insert. reflexivity.
Qed.

Lemma gobble_ge mem p : (p <= (gobble mem p).2)%nat.
Proof. funelim (gobble mem p); simpl; lia. Qed.

Lemma gobble_stop mem p :
  at_space (gobble mem p).1 (gobble mem p).2 = false.
Proof. funelim (gobble mem p); [assumption|]. simpl. exact e. Qed.

Lemma scan_le mem p : (p <= scan mem p)%nat.
Proof. funelim (scan mem p); simpl; lia. Qed.

Lemma scan_gt mem p : at_arg mem p = true -> (p < scan mem p)%nat.
Proof.
  intros Ha. rewrite scan_step, Ha. pose proof (scan_le mem (S p)). lia.
Qed.

Lemma at_arg_after_gobble mem p :
  char_eqb (peek mem p) NUL = false -> at_space mem p = false ->
  at_arg mem p = true.
Proof.
  unfold at_space, at_arg. intros ->. simpl. intros ->. reflexivity.
Qed.

(** Outcome of the parsing loop: the buffer as it was left and the
    pointers stored in [argv[0..argc-1]], or the early [return 0] taken
    when a further argument starts with [argc == MAXARGS-1]. *)
Inductive Parsed :=
| Args (mem : list ascii) (argv : list nat)
| TooMany.

(** The [while (1)] loop of [runcmd]; [argc] is the length of [argv]. *)
Equations? parse (mem : list ascii) (p : nat) (argv : list nat) : Parsed
  by wf (length mem - p)%nat lt :=
  parse mem p argv with inspect (gobble mem p) => {
    | exist _ (mem1, p1) _ with inspect (char_eqb (peek mem1 p1) NUL) => {
      | exist _ true _ => Args mem1 argv
      | exist _ false _ with inspect (Z.of_nat (length argv) =? MAXARGS - 1) => {
        | exist _ true _ => TooMany
        | exist _ false _ => parse mem1 (scan mem1 p1) (argv ++ [p1]) } } }.
Proof.
  pose proof (gobble_length mem p) as Hl.
  pose proof (gobble_ge mem p) as Hg.
  pose proof (gobble_stop mem p) as Hs.
  rewrite e in Hl, Hg, Hs. simpl in Hl, Hg, Hs.
  pose proof (at_arg_after_gobble _ _ e0 Hs) as Ha.
  pose proof (scan_gt _ _ Ha). pose proof (at_arg_lt _ _ Ha). lia.
Qed.

Lemma parse_step mem p argv :
  parse mem p argv =
  let '(mem1, p1) := gobble mem p in
  if char_eqb (peek mem1 p1) NUL then Args mem1 argv
  else if Z.of_nat (length argv) =? MAXARGS - 1 then TooMany
  else parse mem1 (scan mem1 p1) (argv ++ [p1]).
Proof.
  funelim (parse mem p argv); rewrite e; simpl;
    repeat match goal with
           | E : _ = true |- _ => rewrite E
           | E : _ = false |- _ => rewrite E
           end; reflexivity.
Qed.

(** The string a [char *] into the buffer denotes: the characters from
    there up to the next NUL. *)
Fixpoint upto_NUL (l : list ascii) : cstring :=
  match l with
  | [] => []
  | c :: l' => if char_eqb c NUL then [] else c :: upto_NUL l'
  end.

Definition cstr_at (mem : list ascii) (p : nat) : cstring :=
  upto_NUL (drop p mem).

(** The argument strings [argv[0..argc-1]] that [runcmd] hands on, or
    [None] when it gives up on the line. *)
Definition runcmd_argv (buf : list ascii) : option (list cstring) :=
  match parse buf 0 [] with
  | Args mem argv => Some (map (cstr_at mem) argv)
  | TooMany => None
  end.

(** ** The command handlers *)

(** Size of the local array [funn] of [mon_backtrace]. *)
Definition FUNN_SIZE : Z := 100.

Definition command_info : list (string * string) :=
  [ ("help", "Display this list of commands");
    ("kerninfo", "Display information about the kernel");
    ("backtrace", "Trace the stack and call hierarchy");
    ("chcolor", "Change the default display color");
    ("continue", "Continue from a breakpoint");
    ("si", "Continue from a breakpoint with single step") ]%string.

Definition fmt_frame : string :=
  ("  ebp %08x  eip %08x  args %08x %08x %08x %08x %08x" ++ nl)%string.
Definition fmt_symbol : string := ("         %s:%d: %s+%d" ++ nl)%string.

Section Monitor.

(** The single-step flag of EFLAGS (inc/mmu.h). *)
Variable FL_TF : Z.

(** The external resolver: the contents of [info] after
    [debuginfo_eip(eip, &info)]. *)
Variable debuginfo_eip : Z -> Eipdebuginfo.

(** Indeterminate initial contents of the automatic array [funn]. *)
Variable funn_junk : nat -> ascii.

(** Linker symbols and the kernel base address (inc/memlayout.h). *)
Variables _start entry etext edata end_ KERNBASE : Z.

(** The rounding macro [ROUNDUP(a, n)] (inc/types.h). *)
Variable ROUNDUP : Z -> Z -> Z.

Fixpoint help_loop (cs : list (string * string)) : M unit :=
  match cs with
  | [] => ret tt
  | (name, desc) :: cs' =>
      cprintf ("%s - %s" ++ nl) [AStr (lit name); AStr (lit desc)];;
      help_loop cs'
  end.

Definition mon_help (argc : Z) (argv : list cstring) (tf : Z) : M Z :=
  help_loop command_info;;
  ret 0.

Definition mon_kerninfo (argc : Z) (argv : list cstring) (tf : Z) : M Z :=
  cprintf ("Special kernel symbols:" ++ nl) [];;
  cprintf ("  _start                  %08x (phys)" ++ nl) [AInt _start];;
  cprintf ("  entry  %08x (virt)  %08x (phys)" ++ nl)
          [AInt entry; AInt (wrap32 (entry - KERNBASE))];;
  cprintf ("  etext  %08x (virt)  %08x (phys)" ++ nl)
          [AInt etext; AInt (wrap32 (etext - KERNBASE))];;
  cprintf ("  edata  %08x (virt)  %08x (phys)" ++ nl)
          [AInt edata; AInt (wrap32 (edata - KERNBASE))];;
  cprintf ("  end    %08x (virt)  %08x (phys)" ++ nl)
          [AInt end_; AInt (wrap32 (end_ - KERNBASE))];;
  cprintf ("Kernel executable memory footprint: %dKB" ++ nl)
          [AInt (Z.quot (ROUNDUP (int32 (end_ - entry)) 1024) 1024)];;
  ret 0.

(** [funn[i] = c]: a store into [char funn[100]]. *)
Definition funn_write (funn : nat -> ascii) (i : Z) (c : ascii)
  : M (nat -> ascii) :=
  if (0 <=? i) && (i <? FUNN_SIZE) then
    ret (fun j => if Nat.eqb j (Z.to_nat i) then c else funn j)
  else halt (Faulted (OobWrite "funn" i)).

(** [for (; i < namelen; i++) funn[i] = name[i];] with [n] iterations
    left to run. *)
Fixpoint copy_name (n : nat) (i : nat) (name : cstring) (funn : nat -> ascii)
  : M (nat -> ascii) :=
  match n with
  | O => ret funn
  | S n' =>
      do c <- char_at "eip_fn_name" name i;
      do funn' <- funn_write funn (Z.of_nat i) c;
      copy_name n' (S i) name funn'
  end.

(** The characters of [funn] from index [i] up to the first NUL, with
    [n] cells of the array left. *)
Fixpoint funn_chars (n : nat) (i : nat) (funn : nat -> ascii)
  : option cstring :=
  match n with
  | O => None
  | S n' =>
      if char_eqb (funn i) NUL then Some []
      else option_map (cons (funn i)) (funn_chars n' (S i) funn)
  end.

(** [funn] passed for a [%s]. *)
Definition funn_string (funn : nat -> ascii) : M cstring :=
  match funn_chars (Z.to_nat FUNN_SIZE) 0 funn with
  | Some s => ret s
  | None => halt (Faulted (OobRead "funn" FUNN_SIZE))
  end.

(** The [while (ebp != 0)] loop of [mon_backtrace]; [fuel] bounds the
    number of times its condition is evaluated. *)
Fixpoint backtrace_loop (fuel : nat) (ebp : Z) (funn : nat -> ascii)
  : M unit :=
  match fuel with
  | O => halt OutOfFuel
  | S fuel' =>
      if ebp =? 0 then ret tt
      else
        do eip <- load32 (wrap32 (ebp + 4));
        let info := debuginfo_eip eip in
        do funn1 <- copy_name (Z.to_nat (eip_fn_namelen info)) 0
                              (eip_fn_name info) funn;
        do funn2 <- funn_write funn1 (eip_fn_namelen info) NUL;
        do r <- load32 (wrap32 (ebp + 4));
        do a1 <- load32 (wrap32 (ebp + 8));
        do a2 <- load32 (wrap32 (ebp + 12));
        do a3 <- load32 (wrap32 (ebp + 16));
        do a4 <- load32 (wrap32 (ebp + 20));
        do a5 <- load32 (wrap32 (ebp + 24));
        cprintf fmt_frame
                [AInt ebp; AInt r; AInt a1; AInt a2; AInt a3; AInt a4;
                 AInt a5];;
        do name <- funn_string funn2;
        cprintf fmt_symbol
                [AStr (eip_file info); AInt (eip_line info); AStr name;
                 AInt (wrap32 (eip - eip_fn_addr info))];;
        do ebp' <- load32 ebp;
        backtrace_loop fuel' ebp' funn2
  end.

Definition mon_backtrace (fuel : nat)
           (argc : Z) (argv : list cstring) (tf : Z) : M Z :=
  cprintf ("Stack backtrace:" ++ nl) [];;
  do ebp <- read_ebp;
  backtrace_loop fuel ebp funn_junk;;
  ret 0.

Definition mon_chcolor (argc : Z) (argv : list cstring) (tf : Z) : M Z :=
  (if negb (argc =? 2) then
     cprintf ("Argument number error" ++ nl) []
   else
     do a1 <- argv_get argv 1;
     if negb (Z.of_nat (length a1) =? 2) then
       cprintf "Argument error" []
     else
       do c0 <- char_at "argv[1]" a1 0;
       do c1 <- char_at "argv[1]" a1 1;
       let bg := if char_eqb c0 "r" then int16 (Z.shiftl 1 6)
                 else if char_eqb c0 "g" then int16 (Z.shiftl 1 5)
                 else if char_eqb c0 "b" then int16 (Z.shiftl 1 4)
                 else if char_eqb c0 "w" then int16 112
                 else int16 0 in
       let ft := if char_eqb c1 "r" then int16 (Z.shiftl 1 2)
                 else if char_eqb c1 "g" then int16 (Z.shiftl 1 1)
                 else if char_eqb c1 "b" then int16 1
                 else if char_eqb c1 "w" then int16 7
                 else int16 0 in
       set_CGA_COLOR_MASK (int16 (Z.shiftl (Z.lor bg ft) 8)));;
  cprintf ("Color changed" ++ nl) [];;
  ret 0.

Definition mon_continue (argc : Z) (argv : list cstring) (tf : Z) : M Z :=
  if tf =? 0 then
    cprintf ("Not a breakpoint" ++ nl) [];;
    ret 0
  else
    do t <- load_tf tf;
    store_tf tf (set_tf_eflags
                   (wrap32 (Z.land (tf_eflags t) (Z.lnot FL_TF))) t);;
    env_pop_tf tf;;
    ret 0.

Definition mon_si (argc : Z) (argv : list cstring) (tf : Z) : M Z :=
  if tf =? 0 then
    cprintf ("Not a breakpoint" ++ nl) [];;
    ret 0
  else
    cprintf ("Single Step" ++ nl) [];;
    do t <- load_tf tf;
    store_tf tf (set_tf_eflags (wrap32 (Z.lor (tf_eflags t) FL_TF)) t);;
    env_pop_tf tf;;
    ret 0.

(** ** The command table and the interpreter *)

Record Command := {
  name : string;
  desc : string;
  func : Z -> list cstring -> Z -> M Z
}.

Definition commands (fuel : nat) : list Command :=
  [ {| name := "help"; desc := "Display this list of commands";
       func := mon_help |};
    {| name := "kerninfo"; desc := "Display information about the kernel";
       func := mon_kerninfo |};
    {| name := "backtrace"; desc := "Trace the stack and call hierarchy";
       func := mon_backtrace fuel |};
    {| name := "chcolor"; desc := "Change the default display color";
       func := mon_chcolor |};
    {| name := "continue"; desc := "Continue from a breakpoint";
       func := mon_continue |};
    {| name := "si"; desc := "Continue from a breakpoint with single step";
       func := mon_si |} ].

(** [for (i = 0; i < NCOMMANDS; i++) ...] and the code after it. *)
Fixpoint dispatch (cmds : list Command)
         (argc : Z) (argv : list cstring) (tf : Z) : M Z :=
  match cmds with
  | [] =>
      do a0 <- argv_get argv 0;
      cprintf ("Unknown command '%s'" ++ nl) [AStr a0];;
      ret 0
  | c :: cmds' =>
      do a0 <- argv_get argv 0;
      if cstr_eqb a0 (lit (name c)) then func c argc argv tf
      else dispatch cmds' argc argv tf
  end.

Definition runcmd_with (cmds : list Command) (buf : list ascii) (tf : Z)
  : M Z :=
  match runcmd_argv buf with
  | None =>
      cprintf ("Too many arguments (max %d)" ++ nl) [AInt MAXARGS];;
      ret 0
  | Some argv =>
      let argc := Z.of_nat (length argv) in
      if argc =? 0 then ret 0
      else dispatch cmds argc argv tf
  end.

Definition runcmd (fuel : nat) (buf : list ascii) (tf : Z) : M Z :=
  runcmd_with (commands fuel) buf tf.

End Monitor.

(** * Properties *)

(** ** Bit-level facts about the flag updates *)

Lemma testbit_above_32 (x n : Z) :
  0 <= x < 2 ^ 32 -> 32 <= n -> Z.testbit x n = false.
Proof.
  intros Hx Hn.
  rewrite <- (Z.mod_small x (2 ^ 32)) by lia.
  rewrite <- Z.land_ones by lia.
  rewrite Z.land_spec, Z.ones_spec_high by lia.
  apply andb_false_r.
Qed.

Lemma wrap32_testbit (x n : Z) :
  0 <= n ->
  Z.testbit (wrap32 x) n = Z.testbit x n && (n <? 32).
Proof.
  intros Hn. unfold wrap32.
  rewrite <- Z.land_ones by lia.
  rewrite Z.land_spec. f_equal.
  destruct (n <? 32) eqn:E.
  - apply Z.ones_spec_low. lia.
  - apply Z.ones_spec_high. lia.
Qed.

Lemma flag_set (e F : Z) :
  0 <= F < 2 ^ 32 -> Z.land (wrap32 (Z.lor e F)) F = F.
Proof.
  intros HF. apply Z.bits_inj'. intros n Hn.
  rewrite Z.land_spec, wrap32_testbit, Z.lor_spec by lia.
  destruct (n <? 32) eqn:E.
  - destruct (Z.testbit e n), (Z.testbit F n); reflexivity.
  - rewrite (testbit_above_32 F n) by lia.
    apply andb_false_r.
Qed.

Lemma flag_cleared (e F : Z) :
  0 <= F < 2 ^ 32 -> Z.land (wrap32 (Z.land e (Z.lnot F))) F = 0.
Proof.
  intros HF. apply Z.bits_inj'. intros n Hn.
  rewrite Z.land_spec, wrap32_testbit, Z.land_spec, Z.lnot_spec by lia.
  rewrite Z.bits_0.
  destruct (Z.testbit e n), (Z.testbit F n), (n <? 32); reflexivity.
Qed.

Lemma flag_set_frame (e F n : Z) :
  0 <= e < 2 ^ 32 -> Z.testbit F n = false ->
  Z.testbit (wrap32 (Z.lor e F)) n = Z.testbit e n.
Proof.
  intros He Hb.
  destruct (Z.ltb_spec n 0) as [Hneg | Hnn].
  { now rewrite !Z.testbit_neg_r by lia. }
  rewrite wrap32_testbit, Z.lor_spec, Hb, orb_false_r by lia.
  destruct (n <? 32) eqn:E; [apply andb_true_r|].
  rewrite (testbit_above_32 e n) by lia. reflexivity.
Qed.

Lemma flag_cleared_frame (e F n : Z) :
  0 <= e < 2 ^ 32 -> Z.testbit F n = false ->
  Z.testbit (wrap32 (Z.land e (Z.lnot F))) n = Z.testbit e n.
Proof.
  intros He Hb.
  destruct (Z.ltb_spec n 0) as [Hneg | Hnn].
  { now rewrite !Z.testbit_neg_r by lia. }
  rewrite wrap32_testbit, Z.land_spec, Z.lnot_spec, Hb by lia.
  simpl. rewrite andb_true_r.
  destruct (n <? 32) eqn:E; [apply andb_true_r|].
  rewrite (testbit_above_32 e n) by lia. reflexivity.
Qed.

(** ** The breakpoint commands *)

Definition add_out (es : list Event) (w : World) : World :=
  {| w_out := w_out w ++ es; w_cga := w_cga w; w_tfs := w_tfs w;
     w_mem := w_mem w; w_ebp := w_ebp w |}.

Definition set_tf (tf : Z) (t : Trapframe) (w : World) : World :=
  {| w_out := w_out w; w_cga := w_cga w; w_tfs := <[tf := t]> (w_tfs w);
     w_mem := w_mem w; w_ebp := w_ebp w |}.

Lemma mon_si_run FL_TF argc argv tf w t :
  tf <> 0 -> w_tfs w !! tf = Some t ->
  let t' := set_tf_eflags (wrap32 (Z.lor (tf_eflags t) FL_TF)) t in
  mon_si FL_TF argc argv tf w =
  (Halt Resumed,
   add_out [Cprintf ("Single Step" ++ nl) []; EnvPopTf tf t'] (set_tf tf t' w)).
Proof.
  intros Hnz Ht t'.
  unfold mon_si. apply Z.eqb_neq in Hnz. rewrite Hnz.
  unfold bind, cprintf, emit, load_tf, store_tf, env_pop_tf, bind, load_tf,
    emit, halt, add_out, set_tf. simpl.
  repeat (rewrite ?Ht, ?lookup_insert_eq; simpl).
  rewrite <- app_assoc. reflexivity.
Qed.

Lemma mon_continue_run FL_TF argc argv tf w t :
  tf <> 0 -> w_tfs w !! tf = Some t ->
  let t' := set_tf_eflags (wrap32 (Z.land (tf_eflags t) (Z.lnot FL_TF))) t in
  mon_continue FL_TF argc argv tf w =
  (Halt Resumed, add_out [EnvPopTf tf t'] (set_tf tf t' w)).
Proof.
  intros Hnz Ht t'.
  unfold mon_continue. apply Z.eqb_neq in Hnz. rewrite Hnz.
  unfold bind, cprintf, emit, load_tf, store_tf, env_pop_tf, bind, load_tf,
    emit, halt, add_out, set_tf. simpl.
  repeat (rewrite ?Ht, ?lookup_insert_eq; simpl).
  reflexivity.
Qed.

Lemma last_two {A} (l : list A) (a b : A) : last (l ++ [a; b]) = Some b.
Proof.
  replace (l ++ [a; b]) with ((l ++ [a]) ++ [b])
    by (rewrite <- app_assoc; reflexivity).
  apply last_snoc.
Qed.

(** The fields of a trap frame other than [tf_eflags]. *)
Definition same_registers (t t' : Trapframe) : Prop :=
  tf_regs t' = tf_regs t /\ tf_es t' = tf_es t /\ tf_ds t' = tf_ds t /\
  tf_trapno t' = tf_trapno t /\ tf_err t' = tf_err t /\
  tf_eip t' = tf_eip t /\ tf_cs t' = tf_cs t /\
  tf_esp t' = tf_esp t /\ tf_ss t' = tf_ss t.

Lemma same_registers_set v t : same_registers t (set_tf_eflags v t).
Proof. unfold same_registers. simpl. repeat split. Qed.

(** A world in which the console was entered from a breakpoint trap, with
    the trap frame at address 0x1000. *)
Definition bp_frame : Trapframe :=
  {| tf_regs := {| reg_edi := 0; reg_esi := 0; reg_ebp := 4026531800;
                   reg_oesp := 0; reg_ebx := 0; reg_edx := 0; reg_ecx := 0;
                   reg_eax := 0 |};
     tf_es := 35; tf_ds := 35; tf_trapno := 3; tf_err := 0;
     tf_eip := 8388648; tf_cs := 27; tf_eflags := 582;
     tf_esp := 4005552128; tf_ss := 35 |}.

Definition bp_world : World :=
  {| w_out := []; w_cga := 1792; w_tfs := {[ 4096 := bp_frame ]};
     w_mem := ∅; w_ebp := 0 |}.

(** C2: with a non-null context, [si] sets the single-step bit FL_TF in the
    flags register of the context and only then calls the resume primitive
    [env_pop_tf] with it; [continue] clears the bit and only then calls
    [env_pop_tf].  In both cases the context seen by [env_pop_tf] is the
    updated one, and the call does not return. *)
Theorem si_sets_continue_clears_FL_TF FL_TF argc argv argc' argv' tf w t :
  0 <= FL_TF < 2 ^ 32 -> tf <> 0 -> w_tfs w !! tf = Some t ->
  (exists t' w',
      mon_si FL_TF argc argv tf w = (Halt Resumed, w') /\
      w_out w' = w_out w ++ [Cprintf ("Single Step" ++ nl) []; EnvPopTf tf t'] /\
      w_tfs w' !! tf = Some t' /\
      Z.land (tf_eflags t') FL_TF = FL_TF) /\
  (exists t' w',
      mon_continue FL_TF argc' argv' tf w = (Halt Resumed, w') /\
      w_out w' = w_out w ++ [EnvPopTf tf t'] /\
      w_tfs w' !! tf = Some t' /\
      Z.land (tf_eflags t') FL_TF = 0).
Proof.
  intros HF Hnz Ht. split.
  - eexists _, _. split; [apply mon_si_run; eassumption|].
    simpl. rewrite lookup_insert_eq.
    repeat split. apply flag_set, HF.
  - eexists _, _. split; [apply mon_continue_run; eassumption|].
    simpl. rewrite lookup_insert_eq.
    repeat split. apply flag_cleared, HF.
Qed.

Lemma si_sets_continue_clears_FL_TF_witness :
  (exists t' w',
      mon_si 256 1 [lit "si"] 4096 bp_world = (Halt Resumed, w') /\
      w_out w' = w_out bp_world
                 ++ [Cprintf ("Single Step" ++ nl) []; EnvPopTf 4096 t'] /\
      w_tfs w' !! 4096 = Some t' /\
      Z.land (tf_eflags t') 256 = 256) /\
  (exists t' w',
      mon_continue 256 1 [lit "continue"] 4096 bp_world = (Halt Resumed, w') /\
      w_out w' = w_out bp_world ++ [EnvPopTf 4096 t'] /\
      w_tfs w' !! 4096 = Some t' /\
      Z.land (tf_eflags t') 256 = 0).
Proof.
  apply (si_sets_continue_clears_FL_TF 256 1 _ 1 _ 4096 bp_world bp_frame).
  - lia.
  - lia.
  - reflexivity.
Defined.

(** C4: with a null context, [continue] and [si] print "Not a breakpoint",
    change neither the trap frames nor the display attribute (nor anything
    else but the console output), do not call [env_pop_tf], and return the
    non-negative status 0. *)
Theorem no_breakpoint_no_action FL_TF argc argv w :
  (exists status w',
      mon_continue FL_TF argc argv 0 w = (Val status, w') /\ 0 <= status /\
      w_out w' = w_out w ++ [Cprintf ("Not a breakpoint" ++ nl) []] /\
      w_tfs w' = w_tfs w /\ w_cga w' = w_cga w /\
      w_mem w' = w_mem w /\ w_ebp w' = w_ebp w) /\
  (exists status w',
      mon_si FL_TF argc argv 0 w = (Val status, w') /\ 0 <= status /\
      w_out w' = w_out w ++ [Cprintf ("Not a breakpoint" ++ nl) []] /\
      w_tfs w' = w_tfs w /\ w_cga w' = w_cga w /\
      w_mem w' = w_mem w /\ w_ebp w' = w_ebp w).
Proof.
  split; eexists 0, _; (split; [reflexivity|]); simpl; repeat split; lia.
Qed.

(** What [continue] and [si] may change in the context [t] they hand to
    [env_pop_tf] as [t']: no field but the flags register, and in it no
    bit outside the mask FL_TF. *)
Definition only_FL_TF_changed (FL_TF : Z) (t t' : Trapframe) : Prop :=
  same_registers t t' /\
  forall n, Z.testbit FL_TF n = false ->
            Z.testbit (tf_eflags t') n = Z.testbit (tf_eflags t) n.

(** C10: with a non-null context, what [continue] and [si] hand to
    [env_pop_tf] differs from the context they were given in the flags
    register only, and there only in the FL_TF bit ([si] leaves it set,
    [continue] leaves it clear); every other bit of the flags, every other
    field, and every other trap frame are as before. *)
Theorem si_continue_touch_only_FL_TF FL_TF argc argv argc' argv' tf w t :
  0 <= tf_eflags t < 2 ^ 32 -> tf <> 0 -> w_tfs w !! tf = Some t ->
  (exists t' w',
      mon_si FL_TF argc argv tf w = (Halt Resumed, w') /\
      last (w_out w') = Some (EnvPopTf tf t') /\
      w_tfs w' = <[tf := t']> (w_tfs w) /\
      only_FL_TF_changed FL_TF t t' /\
      tf_eflags t' = wrap32 (Z.lor (tf_eflags t) FL_TF)) /\
  (exists t' w',
      mon_continue FL_TF argc' argv' tf w = (Halt Resumed, w') /\
      last (w_out w') = Some (EnvPopTf tf t') /\
      w_tfs w' = <[tf := t']> (w_tfs w) /\
      only_FL_TF_changed FL_TF t t' /\
      tf_eflags t' = wrap32 (Z.land (tf_eflags t) (Z.lnot FL_TF))).
Proof.
  intros He Hnz Ht. split.
  - eexists _, _. split; [apply mon_si_run; eassumption|].
    simpl. split; [|split; [reflexivity|split; [|reflexivity]]].
    + apply last_two.
    + split; [apply same_registers_set|]. simpl. intros n Hn.
      apply flag_set_frame; assumption.
  - eexists _, _. split; [apply mon_continue_run; eassumption|].
    simpl. split; [|split; [reflexivity|split; [|reflexivity]]].
    + apply last_snoc.
    + split; [apply same_registers_set|]. simpl. intros n Hn.
      apply flag_cleared_frame; assumption.
Qed.

Lemma si_continue_touch_only_FL_TF_witness :
  (exists t' w',
      mon_si 256 1 [lit "si"] 4096 bp_world = (Halt Resumed, w') /\
      last (w_out w') = Some (EnvPopTf 4096 t') /\
      w_tfs w' = <[4096 := t']> (w_tfs bp_world) /\
      only_FL_TF_changed 256 bp_frame t' /\
      tf_eflags t' = wrap32 (Z.lor (tf_eflags bp_frame) 256)) /\
  (exists t' w',
      mon_continue 256 1 [lit "continue"] 4096 bp_world = (Halt Resumed, w') /\
      last (w_out w') = Some (EnvPopTf 4096 t') /\
      w_tfs w' = <[4096 := t']> (w_tfs bp_world) /\
      only_FL_TF_changed 256 bp_frame t' /\
      tf_eflags t' = wrap32 (Z.land (tf_eflags bp_frame) (Z.lnot 256))).
Proof.
  apply (si_continue_touch_only_FL_TF 256 1 _ 1 _ 4096 bp_world bp_frame).
  - simpl. lia.
  - lia.
  - reflexivity.
Defined.

(** ** The display attribute *)

Definition set_cga (v : Z) (w : World) : World :=
  {| w_out := w_out w; w_cga := v; w_tfs := w_tfs w;
     w_mem := w_mem w; w_ebp := w_ebp w |}.

(** Bits of a CGA character attribute word: the attribute byte is the
    high byte, with the foreground colour in bits 8-10 (blue, green, red)
    and the background colour in bits 12-14. *)
Definition CGA_FG_GREEN : Z := Z.shiftl 1 9.
Definition CGA_BG_RED : Z := Z.shiftl 1 14.

(** The closed set of colour letters. *)
Definition color_letter (c : ascii) : bool :=
  existsb (char_eqb c) ["r"; "g"; "b"; "w"]%char.

Lemma color_letter_false c :
  color_letter c = false ->
  char_eqb c "r" = false /\ char_eqb c "g" = false /\
  char_eqb c "b" = false /\ char_eqb c "w" = false.
Proof.
  unfold color_letter. simpl.
  destruct (char_eqb c "r"), (char_eqb c "g"), (char_eqb c "b"),
    (char_eqb c "w"); simpl; intros H; try discriminate; repeat split.
Qed.

(** C5: [chcolor rg] stores the attribute made of the background-red bit
    and the foreground-green bit in [CGA_COLOR_MASK]; [chcolor xx] stores
    0, and so does every two-character argument whose characters both lie
    outside r, g, b, w, each such character contributing zero. *)
Theorem chcolor_rg_and_xx cmd tf w :
  mon_chcolor 2 [cmd; lit "rg"] tf w =
    (Val 0, add_out [Cprintf ("Color changed" ++ nl) []]
                    (set_cga (Z.lor CGA_BG_RED CGA_FG_GREEN) w)) /\
  mon_chcolor 2 [cmd; lit "xx"] tf w =
    (Val 0, add_out [Cprintf ("Color changed" ++ nl) []] (set_cga 0 w)) /\
  (forall c0 c1,
      color_letter c0 = false -> color_letter c1 = false ->
      mon_chcolor 2 [cmd; [c0; c1]] tf w =
        (Val 0, add_out [Cprintf ("Color changed" ++ nl) []] (set_cga 0 w))).
Proof.
  split; [reflexivity|]. split; [reflexivity|].
  intros c0 c1 H0 H1.
  apply color_letter_false in H0 as (R0 & G0 & B0 & W0).
  apply color_letter_false in H1 as (R1 & G1 & B1 & W1).
  unfold mon_chcolor, bind, argv_get, char_at, ret. simpl.
  rewrite R0, G0, B0, W0, R1, G1, B1, W1. reflexivity.
Qed.

(** C8: when [chcolor] is not given exactly one argument, or its argument
    is not exactly two characters long, it prints an error message and
    leaves [CGA_COLOR_MASK] as it was; the only effect is console output
    (the error message, followed by the unconditional "Color changed"). *)
Theorem chcolor_bad_usage argc argv tf w :
  (argc <> 2 \/ exists a1, argv !! 1%nat = Some a1 /\ length a1 <> 2%nat) ->
  exists msg,
    mon_chcolor argc argv tf w =
      (Val 0, add_out [Cprintf msg []; Cprintf ("Color changed" ++ nl) []] w) /\
    (msg = ("Argument number error" ++ nl)%string \/ msg = "Argument error"%string) /\
    w_cga (mon_chcolor argc argv tf w).2 = w_cga w.
Proof.
  intros H. unfold mon_chcolor.
  destruct (argc =? 2) eqn:E.
  - destruct H as [H | (a1 & Ha & Hl)]; [apply Z.eqb_eq in E; lia|].
    exists "Argument error"%string.
    unfold bind, argv_get in *. rewrite Ha. unfold ret.
    replace (Z.of_nat (length a1) =? 2) with false
      by (symmetry; apply Z.eqb_neq; lia).
    simpl. unfold add_out. rewrite <- app_assoc. simpl. auto.
  - exists ("Argument number error" ++ nl)%string.
    unfold bind. simpl. unfold add_out. rewrite <- app_assoc. simpl. auto.
Qed.

Lemma chcolor_bad_usage_witness :
  exists msg,
    mon_chcolor 2 [lit "chcolor"; lit "r"] 0 bp_world =
      (Val 0, add_out [Cprintf msg []; Cprintf ("Color changed" ++ nl) []]
                      bp_world) /\
    (msg = ("Argument number error" ++ nl)%string \/ msg = "Argument error"%string) /\
    w_cga (mon_chcolor 2 [lit "chcolor"; lit "r"] 0 bp_world).2 = w_cga bp_world.
Proof.
  apply (chcolor_bad_usage 2 [lit "chcolor"; lit "r"] 0 bp_world).
  right. exists (lit "r"). split; [reflexivity | simpl; lia].
Defined.

Example chcolor_three_chars :
  mon_chcolor 2 [lit "chcolor"; lit "rgb"] 0 bp_world =
  (Val 0, add_out [Cprintf "Argument error" [];
                   Cprintf ("Color changed" ++ nl) []] bp_world).
Proof. reflexivity. Qed.

Example chcolor_no_argument :
  mon_chcolor 1 [lit "chcolor"] 0 bp_world =
  (Val 0, add_out [Cprintf ("Argument number error" ++ nl) [];
                   Cprintf ("Color changed" ++ nl) []] bp_world).
Proof. reflexivity. Qed.

(** ** The stack backtrace *)

Lemma add_out_app es1 es2 w : add_out es2 (add_out es1 w) = add_out (es1 ++ es2) w.
Proof. unfold add_out. simpl. rewrite app_assoc. reflexivity. Qed.

Lemma add_out_nil w : add_out [] w = w.
Proof. destruct w. unfold add_out. simpl. rewrite app_nil_r. reflexivity. Qed.

Lemma cprintf_run fmt args w :
  cprintf fmt args w = (Val tt, add_out [Cprintf fmt args] w).
Proof. reflexivity. Qed.

Lemma load32_run a v w : w_mem w !! a = Some v -> load32 a w = (Val v, w).
Proof. unfold load32. intros ->. reflexivity. Qed.

Lemma funn_write_ok funn i c w :
  0 <= i < FUNN_SIZE ->
  funn_write funn i c w =
  (Val (fun j => if Nat.eqb j (Z.to_nat i) then c else funn j), w).
Proof.
  intros Hi. unfold funn_write.
  replace (0 <=? i) with true by (symmetry; apply Z.leb_le; lia).
  replace (i <? FUNN_SIZE) with true by (symmetry; apply Z.ltb_lt; lia).
  reflexivity.
Qed.

Lemma funn_write_oob funn i c w :
  FUNN_SIZE <= i ->
  funn_write funn i c w = (Halt (Faulted (OobWrite "funn" i)), w).
Proof.
  intros Hi. unfold funn_write.
  replace (i <? FUNN_SIZE) with false by (symmetry; apply Z.ltb_ge; lia).
  rewrite andb_false_r. reflexivity.
Qed.

(** The character the copy loop reads at index [j] of a name. *)
Definition name_char (name : cstring) (j : nat) : ascii :=
  default NUL (name !! j).

Lemma char_at_ok object name j w :
  (j <= length name)%nat ->
  char_at object name j w = (Val (name_char name j), w).
Proof.
  intros Hj. unfold char_at, cstr_get, name_char in *.
  destruct (name !! j) eqn:E; [reflexivity|].
  apply lookup_ge_None in E.
  replace (Nat.eqb j (length name)) with true
    by (symmetry; apply Nat.eqb_eq; lia).
  reflexivity.
Qed.

(** The copy loop, when it stays inside both the name and [funn]. *)
Lemma copy_name_ok n : forall i name funn w,
  Z.of_nat (i + n) <= FUNN_SIZE -> (i + n <= S (length name))%nat ->
  exists funn',
    copy_name n i name funn w = (Val funn', w) /\
    forall j, funn' j = if (i <=? j)%nat && (j <? i + n)%nat
                        then name_char name j else funn j.
Proof.
  induction n as [|n IH]; intros i name funn w Hb Hn.
  - exists funn. split; [reflexivity|]. intros j.
    destruct (Nat.leb_spec i j), (Nat.ltb_spec j (i + 0)); simpl; try reflexivity.
    lia.
  - simpl. unfold bind.
    rewrite char_at_ok by lia.
    rewrite funn_write_ok by lia.
    destruct (IH (S i) name
                 (fun j => if Nat.eqb j (Z.to_nat (Z.of_nat i))
                           then name_char name i else funn j) w)
      as (funn' & Hrun & Hf); [lia | lia |].
    exists funn'. split; [exact Hrun|]. intros j. rewrite Hf.
    rewrite Nat2Z.id.
    destruct (Nat.leb_spec (S i) j), (Nat.ltb_spec j (S i + n)),
      (Nat.leb_spec i j), (Nat.ltb_spec j (i + S n)), (Nat.eqb_spec j i);
      simpl; subst; try reflexivity; lia.
Qed.

(** The copy loop runs into the end of [funn] when asked for more than
    [FUNN_SIZE] characters of a name that long. *)
Lemma copy_name_oob n : forall i name funn w,
  Z.of_nat i <= FUNN_SIZE -> FUNN_SIZE < Z.of_nat (i + n) ->
  (Z.to_nat FUNN_SIZE <= length name)%nat ->
  copy_name n i name funn w = (Halt (Faulted (OobWrite "funn" FUNN_SIZE)), w).
Proof.
  induction n as [|n IH]; intros i name funn w Hi Hb Hn; [lia|].
  simpl. unfold bind.
  rewrite char_at_ok by lia.
  destruct (Z.eq_dec (Z.of_nat i) FUNN_SIZE) as [E | NE].
  - rewrite funn_write_oob by lia. rewrite E. reflexivity.
  - rewrite funn_write_ok by lia. apply IH; lia.
Qed.

Lemma bind_val {A B} (m : M A) (k : A -> M B) w a w' :
  m w = (Val a, w') -> bind m k w = k a w'.
Proof. unfold bind. intros ->. reflexivity. Qed.

Lemma bind_halt {A B} (m : M A) (k : A -> M B) w s w' :
  m w = (Halt s, w') -> bind m k w = (Halt s, w').
Proof. unfold bind. intros ->. reflexivity. Qed.

Lemma funn_chars_spec l : forall n i funn,
  (length l < n)%nat ->
  (forall j, (j < length l)%nat -> funn (i + j)%nat = name_char l j) ->
  funn (i + length l)%nat = NUL ->
  funn_chars n i funn = Some (upto_NUL l).
Proof.
  induction l as [|c l IH]; intros n i funn Hn Hl Hz;
    (destruct n as [|n]; [simpl in Hn; lia|]); simpl in *.
  - rewrite Nat.add_0_r in Hz. rewrite Hz. reflexivity.
  - pose proof (Hl 0%nat ltac:(lia)) as H0.
    rewrite Nat.add_0_r in H0. unfold name_char in H0. simpl in H0.
    rewrite H0. destruct (char_eqb c NUL); [reflexivity|].
    rewrite (IH n (S i) funn); [reflexivity | lia | |].
    + intros j Hj. specialize (Hl (S j) ltac:(lia)).
      replace (S i + j)%nat with (i + S j)%nat by lia. exact Hl.
    + replace (S i + length l)%nat with (i + S (length l))%nat by lia.
      exact Hz.
Qed.

(** What the resolver must deliver for the copy into [funn] to stay in
    bounds: a name length that leaves room for the terminator in [funn]
    and does not lead past the terminator of the name. *)
Definition name_fits (info : Eipdebuginfo) : Prop :=
  0 <= eip_fn_namelen info < FUNN_SIZE /\
  eip_fn_namelen info <= Z.of_nat (length (eip_fn_name info)) + 1.

(** The function name as printed: the first [eip_fn_namelen] characters
    of [eip_fn_name]. *)
Definition shown_name (info : Eipdebuginfo) : cstring :=
  upto_NUL (take (Z.to_nat (eip_fn_namelen info)) (eip_fn_name info)).

Lemma upto_NUL_id (l : cstring) : NUL ∉ l -> upto_NUL l = l.
Proof.
  induction l as [|c l IH]; [reflexivity|]. intros Hn. simpl.
  destruct (char_eqb c NUL) eqn:E.
  - apply Ascii.eqb_eq in E. subst. exfalso. apply Hn. left.
  - rewrite IH; [reflexivity|]. intros Hin. apply Hn. now right.
Qed.

Lemma upto_NUL_snoc (l : cstring) : upto_NUL (l ++ [NUL]) = upto_NUL l.
Proof.
  induction l as [|c l IH]; [reflexivity|]. simpl.
  destruct (char_eqb c NUL); [reflexivity|]. now rewrite IH.
Qed.

Lemma shown_name_prefix info :
  NUL ∉ eip_fn_name info ->
  shown_name info = take (Z.to_nat (eip_fn_namelen info)) (eip_fn_name info).
Proof.
  intros Hn. apply upto_NUL_id. intros Hin. apply Hn.
  apply elem_of_take in Hin as (i & Hi & _).
  eapply list_elem_of_lookup_2, Hi.
Qed.

Lemma name_char_snoc (name : cstring) j :
  name_char (name ++ [NUL]) j = name_char name j.
Proof.
  unfold name_char.
  destruct (Nat.lt_ge_cases j (length name)) as [Hlt | Hge].
  - rewrite lookup_app_l by lia. reflexivity.
  - rewrite (lookup_ge_None_2 name j) by lia. simpl.
    rewrite lookup_app_r by lia.
    destruct (j - length name)%nat as [|k]; reflexivity.
Qed.

Lemma upto_NUL_take_snoc (name : cstring) n :
  upto_NUL (take n (name ++ [NUL])) = upto_NUL (take n name).
Proof.
  destruct (Nat.le_gt_cases n (length name)) as [Hle | Hgt].
  - rewrite take_app_le by lia. reflexivity.
  - rewrite (take_ge (name ++ [NUL])) by (rewrite length_app; simpl; lia).
    rewrite (take_ge name) by lia. apply upto_NUL_snoc.
Qed.

(** The two writes into [funn] and the read for [%s], for a name that
    fits. *)
Lemma funn_filled info funn w :
  name_fits info ->
  exists funn1 funn2,
    copy_name (Z.to_nat (eip_fn_namelen info)) 0 (eip_fn_name info) funn w
      = (Val funn1, w) /\
    (forall w', funn_write funn1 (eip_fn_namelen info) NUL w' = (Val funn2, w')) /\
    (forall w', funn_string funn2 w' = (Val (shown_name info), w')).
Proof.
  intros [Hr Hl].
  destruct (copy_name_ok (Z.to_nat (eip_fn_namelen info)) 0 (eip_fn_name info)
              funn w) as (funn1 & Hc & Hf1); [lia | lia |].
  exists funn1. eexists. split; [exact Hc|]. split.
  - intros w'. apply funn_write_ok. exact Hr.
  - intros w'. unfold funn_string, shown_name.
    set (n := Z.to_nat (eip_fn_namelen info)) in *.
    rewrite <- upto_NUL_take_snoc.
    assert (Hlen : length (take n (eip_fn_name info ++ [NUL])) = n).
    { rewrite length_take, length_app. simpl. lia. }
    erewrite (funn_chars_spec (take n (eip_fn_name info ++ [NUL])));
      [reflexivity | | |].
    + rewrite Hlen. unfold FUNN_SIZE in *. lia.
    + intros j Hj. rewrite Hlen in Hj. simpl.
      replace (Nat.eqb j n) with false by (symmetry; apply Nat.eqb_neq; lia).
      rewrite Hf1. simpl.
      replace (j <? n)%nat with true by (symmetry; apply Nat.ltb_lt; lia).
      unfold name_char at 2. rewrite lookup_take_lt by lia.
      symmetry. apply name_char_snoc.
    + rewrite Hlen. simpl. rewrite Nat.eqb_refl. reflexivity.
Qed.

(** A stack frame as the calling convention lays it out: at [fr_ebp] the
    saved frame pointer of the caller, above it the return address, above
    that five words taken to be arguments. *)
Record Frame := {
  fr_ebp : Z;
  fr_eip : Z;
  fr_arg1 : Z; fr_arg2 : Z; fr_arg3 : Z; fr_arg4 : Z; fr_arg5 : Z;
  fr_caller : Z
}.

Definition frame_at (m : gmap Z Z) (ebp : Z) (f : Frame) : Prop :=
  ebp <> 0 /\ fr_ebp f = ebp /\
  m !! wrap32 (ebp + 4) = Some (fr_eip f) /\
  m !! wrap32 (ebp + 8) = Some (fr_arg1 f) /\
  m !! wrap32 (ebp + 12) = Some (fr_arg2 f) /\
  m !! wrap32 (ebp + 16) = Some (fr_arg3 f) /\
  m !! wrap32 (ebp + 20) = Some (fr_arg4 f) /\
  m !! wrap32 (ebp + 24) = Some (fr_arg5 f) /\
  m !! ebp = Some (fr_caller f).

(** Frames linked through their saved frame pointers, from the frame at
    [ebp] (the innermost) to the one whose saved frame pointer is [stop]. *)
Fixpoint frame_path (m : gmap Z Z) (ebp : Z) (fs : list Frame) (stop : Z)
  : Prop :=
  match fs with
  | [] => ebp = stop
  | f :: fs' => frame_at m ebp f /\ frame_path m (fr_caller f) fs' stop
  end.

(** A frame-pointer chain terminating in a zero frame pointer. *)
Definition frame_chain (m : gmap Z Z) (ebp : Z) (fs : list Frame) : Prop :=
  frame_path m ebp fs 0.

(** The record printed for one frame. *)
Definition frame_record (debuginfo_eip : Z -> Eipdebuginfo) (f : Frame)
  : list Event :=
  let info := debuginfo_eip (fr_eip f) in
  [ Cprintf fmt_frame
            [AInt (fr_ebp f); AInt (fr_eip f); AInt (fr_arg1 f);
             AInt (fr_arg2 f); AInt (fr_arg3 f); AInt (fr_arg4 f);
             AInt (fr_arg5 f)];
    Cprintf fmt_symbol
            [AStr (eip_file info); AInt (eip_line info);
             AStr (shown_name info);
             AInt (wrap32 (fr_eip f - eip_fn_addr info))] ].

Definition frame_records (debuginfo_eip : Z -> Eipdebuginfo)
           (fs : list Frame) : list Event :=
  concat (map (frame_record debuginfo_eip) fs).

Lemma frame_records_length debuginfo_eip fs :
  length (frame_records debuginfo_eip fs) = (2 * length fs)%nat.
Proof.
  unfold frame_records. induction fs as [|f fs IH]; [reflexivity|].
  simpl. rewrite IH. lia.
Qed.

Lemma w_mem_add_out es w : w_mem (add_out es w) = w_mem w.
Proof. reflexivity. Qed.

(** One turn of the loop on a well-formed frame. *)
Lemma backtrace_loop_step debuginfo_eip fuel ebp funn w f :
  frame_at (w_mem w) ebp f ->
  name_fits (debuginfo_eip (fr_eip f)) ->
  exists funn',
    backtrace_loop debuginfo_eip (S fuel) ebp funn w =
    backtrace_loop debuginfo_eip fuel (fr_caller f) funn'
                   (add_out (frame_record debuginfo_eip f) w).
Proof.
  intros (Hnz & Hebp & Heip & H1 & H2 & H3 & H4 & H5 & Hc) Hfit.
  destruct (funn_filled _ funn w Hfit) as (funn1 & funn2 & Hcp & Hwr & Hrd).
  exists funn2. simpl.
  apply Z.eqb_neq in Hnz. rewrite Hnz.
  rewrite (bind_val _ _ _ _ _ (load32_run _ _ _ Heip)).
  rewrite (bind_val _ _ _ _ _ Hcp).
  rewrite (bind_val _ _ _ _ _ (Hwr w)).
  rewrite (bind_val _ _ _ _ _ (load32_run _ _ _ Heip)).
  rewrite (bind_val _ _ _ _ _ (load32_run _ _ _ H1)).
  rewrite (bind_val _ _ _ _ _ (load32_run _ _ _ H2)).
  rewrite (bind_val _ _ _ _ _ (load32_run _ _ _ H3)).
  rewrite (bind_val _ _ _ _ _ (load32_run _ _ _ H4)).
  rewrite (bind_val _ _ _ _ _ (load32_run _ _ _ H5)).
  rewrite (bind_val _ _ _ _ _ (cprintf_run _ _ _)).
  rewrite (bind_val _ _ _ _ _ (Hrd _)).
  rewrite (bind_val _ _ _ _ _ (cprintf_run _ _ _)).
  rewrite add_out_app.
  rewrite (bind_val _ _ _ _ _ (load32_run ebp _ (add_out _ w) Hc)).
  unfold frame_record. rewrite Hebp. reflexivity.
Qed.

(** The loop walks a path of frames, one record per frame, in order. *)
Lemma backtrace_loop_path debuginfo_eip fs : forall fuel ebp stop funn w,
  frame_path (w_mem w) ebp fs stop ->
  Forall (fun f => name_fits (debuginfo_eip (fr_eip f))) fs ->
  exists funn',
    backtrace_loop debuginfo_eip (length fs + fuel) ebp funn w =
    backtrace_loop debuginfo_eip fuel stop funn'
                   (add_out (frame_records debuginfo_eip fs) w).
Proof.
  induction fs as [|f fs IH]; intros fuel ebp stop funn w Hp Hfit.
  - simpl in *. subst. exists funn. rewrite add_out_nil. reflexivity.
  - destruct Hp as [Hf Hp]. inversion Hfit as [|? ? Hfit1 Hfit2]; subst.
    destruct (backtrace_loop_step debuginfo_eip (length fs + fuel) ebp funn w f
                Hf Hfit1) as (funn1 & Hstep).
    destruct (IH fuel (fr_caller f) stop funn1
                 (add_out (frame_record debuginfo_eip f) w) Hp Hfit2)
      as (funn2 & Hrest).
    exists funn2. simpl length. simpl Nat.add. rewrite Hstep, Hrest.
    rewrite add_out_app. reflexivity.
Qed.

(** C1: on a frame-pointer chain of N linked frames terminating in a zero
    frame pointer, [backtrace] prints (after its heading) exactly N frame
    records, innermost first; the record of a frame carries its frame
    pointer, the return address stored just above it, the five words
    above that, and what the resolver reports for the return address
    (the placeholder if it resolved nothing); the next frame is the one
    whose address is stored at the current frame pointer.  The resolver
    is taken to report name lengths that fit [funn]. *)
Theorem backtrace_prints_chain debuginfo_eip funn_junk fuel argc argv tf w fs :
  frame_chain (w_mem w) (w_ebp w) fs ->
  Forall (fun f => name_fits (debuginfo_eip (fr_eip f))) fs ->
  (length fs < fuel)%nat ->
  mon_backtrace debuginfo_eip funn_junk fuel argc argv tf w =
  (Val 0, add_out (Cprintf ("Stack backtrace:" ++ nl) []
                   :: frame_records debuginfo_eip fs) w)
  /\ length (frame_records debuginfo_eip fs) = (2 * length fs)%nat.
Proof.
  intros Hch Hfit Hfuel. split.
  - unfold mon_backtrace.
    rewrite (bind_val _ _ _ _ _ (cprintf_run _ _ _)).
    unfold read_ebp at 1. unfold bind at 1. simpl w_ebp.
    destruct (backtrace_loop_path debuginfo_eip fs (fuel - length fs) (w_ebp w)
                0 funn_junk (add_out [Cprintf ("Stack backtrace:" ++ nl) []] w)
                Hch Hfit) as (funn' & Hwalk).
    replace (length fs + (fuel - length fs))%nat with fuel in Hwalk by lia.
    unfold bind. rewrite Hwalk.
    destruct (fuel - length fs)%nat as [|k] eqn:E; [lia|].
    simpl. rewrite add_out_app. reflexivity.
  - apply frame_records_length.
Qed.

(** A resolver that resolves nothing: every address gets the placeholder
    identification. *)
Definition unknown_info (addr : Z) : Eipdebuginfo :=
  {| eip_file := lit "<unknown>"; eip_line := 0;
     eip_fn_name := lit "<unknown>"; eip_fn_namelen := 9;
     eip_fn_addr := addr |}.

(** A resolver that knows one function. *)
Definition sample_resolver (addr : Z) : Eipdebuginfo :=
  if (0xf0100040 <=? addr) && (addr <? 0xf0100080) then
    {| eip_file := lit "kern/init.c"; eip_line := 18;
       eip_fn_name := lit "test_backtrace:F(0,1)"; eip_fn_namelen := 14;
       eip_fn_addr := 0xf0100040 |}
  else unknown_info addr.

Definition inner_frame : Frame :=
  {| fr_ebp := 0xf010ff18; fr_eip := 0xf0100068;
     fr_arg1 := 0; fr_arg2 := 1; fr_arg3 := 0xf010ff78; fr_arg4 := 0;
     fr_arg5 := 0xf01008bf; fr_caller := 0xf010ff38 |}.

Definition outer_frame : Frame :=
  {| fr_ebp := 0xf010ff38; fr_eip := 0xf010003e;
     fr_arg1 := 0x00111021; fr_arg2 := 0; fr_arg3 := 0; fr_arg4 := 0;
     fr_arg5 := 0; fr_caller := 0 |}.

Definition frame_words (f : Frame) : list (Z * Z) :=
  [ (fr_ebp f, fr_caller f);
    (wrap32 (fr_ebp f + 4), fr_eip f);
    (wrap32 (fr_ebp f + 8), fr_arg1 f);
    (wrap32 (fr_ebp f + 12), fr_arg2 f);
    (wrap32 (fr_ebp f + 16), fr_arg3 f);
    (wrap32 (fr_ebp f + 20), fr_arg4 f);
    (wrap32 (fr_ebp f + 24), fr_arg5 f) ].

(** A world whose stack holds two linked frames, the outer one with a
    zero saved frame pointer. *)
Definition stack_world : World :=
  {| w_out := []; w_cga := 1792; w_tfs := ∅;
     w_mem := list_to_map (frame_words inner_frame ++ frame_words outer_frame);
     w_ebp := 0xf010ff18 |}.

Definition junk (i : nat) : ascii := "?"%char.

Lemma backtrace_prints_chain_witness :
  mon_backtrace sample_resolver junk 3 1 [lit "backtrace"] 0 stack_world =
  (Val 0, add_out (Cprintf ("Stack backtrace:" ++ nl) []
                   :: frame_records sample_resolver [inner_frame; outer_frame])
                  stack_world)
  /\ length (frame_records sample_resolver [inner_frame; outer_frame])
     = (2 * length [inner_frame; outer_frame])%nat.
Proof.
  apply (backtrace_prints_chain sample_resolver junk 3 1 _ 0 stack_world
           [inner_frame; outer_frame]).
  - vm_compute. repeat split; discriminate.
  - repeat constructor; vm_compute; discriminate.
  - simpl. lia.
Defined.

Example backtrace_record_of_inner_frame :
  frame_record sample_resolver inner_frame =
  [ Cprintf fmt_frame
            [AInt 0xf010ff18; AInt 0xf0100068; AInt 0; AInt 1;
             AInt 0xf010ff78; AInt 0; AInt 0xf01008bf];
    Cprintf fmt_symbol
            [AStr (lit "kern/init.c"); AInt 18; AStr (lit "test_backtrace");
             AInt 40] ].
Proof. reflexivity. Qed.

(** C9: [mon_backtrace] copies [eip_fn_namelen] characters of the resolved
    name into the 100-byte array [funn] and then stores a NUL at index
    [eip_fn_namelen], without comparing that length with the size of the
    array.  For every reported length of 100 or more (the name being that
    long), the first frame already makes it store outside [funn]: the
    terminating NUL goes to an index past the end, and when the length
    exceeds 100 so does the copy loop, at index 100. *)
Theorem backtrace_name_overflows_funn
        debuginfo_eip funn_junk fuel argc argv tf w eip :
  w_ebp w <> 0 ->
  w_mem w !! wrap32 (w_ebp w + 4) = Some eip ->
  FUNN_SIZE <= eip_fn_namelen (debuginfo_eip eip) ->
  FUNN_SIZE <= Z.of_nat (length (eip_fn_name (debuginfo_eip eip))) ->
  let info := debuginfo_eip eip in
  mon_backtrace debuginfo_eip funn_junk (S fuel) argc argv tf w =
    (Halt (Faulted (OobWrite "funn" FUNN_SIZE)),
     add_out [Cprintf ("Stack backtrace:" ++ nl) []] w) /\
  (forall funn w',
      funn_write funn (eip_fn_namelen info) NUL w' =
      (Halt (Faulted (OobWrite "funn" (eip_fn_namelen info))), w')) /\
  (FUNN_SIZE < eip_fn_namelen info ->
   forall funn w',
     copy_name (Z.to_nat (eip_fn_namelen info)) 0 (eip_fn_name info) funn w' =
     (Halt (Faulted (OobWrite "funn" FUNN_SIZE)), w')).
Proof.
  intros Hnz Heip Hlen Hname info. subst info. split; [|split].
  - unfold mon_backtrace.
    rewrite (bind_val _ _ _ _ _ (cprintf_run _ _ _)).
    unfold read_ebp at 1. unfold bind at 1. simpl w_ebp.
    apply bind_halt. simpl.
    apply Z.eqb_neq in Hnz. rewrite Hnz.
    rewrite (bind_val _ _ _ _ _ (load32_run _ _ (add_out _ w) Heip)).
    set (info := debuginfo_eip eip) in *.
    destruct (Z.eq_dec (eip_fn_namelen info) FUNN_SIZE) as [E | NE].
    + destruct (copy_name_ok (Z.to_nat (eip_fn_namelen info)) 0
                  (eip_fn_name info) funn_junk
                  (add_out [Cprintf ("Stack backtrace:" ++ nl) []] w))
        as (funn1 & Hc & _); [unfold FUNN_SIZE in *; lia ..|].
      rewrite (bind_val _ _ _ _ _ Hc).
      apply bind_halt. rewrite funn_write_oob by lia. rewrite E. reflexivity.
    + apply bind_halt. apply copy_name_oob; unfold FUNN_SIZE in *; lia.
  - intros funn w'. apply funn_write_oob. exact Hlen.
  - intros Hgt funn w'. apply copy_name_oob; unfold FUNN_SIZE in *; lia.
Qed.

(** A resolver that reports a name of 120 characters. *)
Definition long_name_resolver (addr : Z) : Eipdebuginfo :=
  {| eip_file := lit "kern/init.c"; eip_line := 18;
     eip_fn_name := repeat "f"%char 120; eip_fn_namelen := 120;
     eip_fn_addr := addr |}.

Lemma backtrace_name_overflows_funn_witness :
  mon_backtrace long_name_resolver junk 3 1 [lit "backtrace"] 0 stack_world =
  (Halt (Faulted (OobWrite "funn" FUNN_SIZE)),
   add_out [Cprintf ("Stack backtrace:" ++ nl) []] stack_world).
Proof.
  refine (proj1 (backtrace_name_overflows_funn long_name_resolver junk 2 1
                   [lit "backtrace"] 0 stack_world 0xf0100068 _ _ _ _)).
  - vm_compute. discriminate.
  - vm_compute. reflexivity.
  - vm_compute. discriminate.
  - vm_compute. discriminate.
Defined.

(** *** Only a zero frame pointer ends the walk *)

Lemma bind_inv {A B} (m : M A) (k : A -> M B) w b w' :
  bind m k w = (Val b, w') ->
  exists a w1, m w = (Val a, w1) /\ k a w1 = (Val b, w').
Proof.
  unfold bind. destruct (m w) as [[a | s] w1]; intros H.
  - eauto.
  - discriminate.
Qed.





Ltac inv_bind H a w Hm :=
  let H' := fresh in
  destruct (bind_inv _ _ _ _ _ H) as (a & w & Hm & H'); clear H; rename H' into H.




Lemma mon_backtrace_unfold debuginfo_eip funn_junk fuel argc argv tf w :
  mon_backtrace debuginfo_eip funn_junk fuel argc argv tf w =
  bind (backtrace_loop debuginfo_eip fuel (w_ebp w) funn_junk)
       (fun _ => ret 0)
       (add_out [Cprintf ("Stack backtrace:" ++ nl) []] w).
Proof. reflexivity. Qed.


Lemma unknown_info_fits eip : name_fits (unknown_info eip).
Proof. unfold name_fits, FUNN_SIZE. simpl. lia. Qed.

Lemma sample_resolver_fits eip : name_fits (sample_resolver eip).
Proof.
  unfold sample_resolver.
  destruct ((0xf0100040 <=? eip) && (eip <? 0xf0100080));
    unfold name_fits, FUNN_SIZE; simpl; lia.
Qed.







(** ** The tokenizer *)

(** *** The specification: whitespace-separated tokens *)

Definition is_space (c : ascii) : bool := strchr WHITESPACE c.

(** The fields of a line, cut at every whitespace character. *)
Fixpoint fields (l : list ascii) : list (list ascii) :=
  match l with
  | [] => [[]]
  | c :: l' =>
      if is_space c then [] :: fields l'
      else match fields l' with
           | f :: fs => (c :: f) :: fs
           | [] => [[c]]
           end
  end.

Definition nonempty (f : list ascii) : bool :=
  match f with [] => false | _ :: _ => true end.

(** The tokens of a line: its non-empty fields, in order. *)
Definition tokens (l : list ascii) : list (list ascii) :=
  List.filter nonempty (fields l).

(** A token: at least one character, none of them whitespace. *)
Definition is_token (t : list ascii) : Prop :=
  t <> [] /\ Forall (fun c => is_space c = false) t.

(** Tokens joined by single blanks. *)
Fixpoint unwords (ts : list (list ascii)) : list ascii :=
  match ts with
  | [] => []
  | [t] => t
  | t :: ts' => t ++ " "%char :: unwords ts'
  end.

(** A list that is empty or starts with a character failing [p]. *)
Definition stops (p : ascii -> bool) (l : list ascii) : Prop :=
  match l with
  | [] => True
  | c :: _ => p c = false
  end.

Lemma fields_cons_inv l : exists f fs, fields l = f :: fs.
Proof.
  induction l as [|c l (f & fs & IH)]; simpl; [eauto|].
  destruct (is_space c); [eauto|]. rewrite IH. eauto.
Qed.

Lemma fields_word t : forall l,
  Forall (fun c => is_space c = false) t ->
  forall f fs, fields l = f :: fs -> fields (t ++ l) = (t ++ f) :: fs.
Proof.
  induction t as [|c t IH]; intros l Ht f fs Hl; [exact Hl|].
  inversion Ht as [|? ? Hc Ht']; subst. simpl. rewrite Hc.
  rewrite (IH l Ht' f fs Hl). reflexivity.
Qed.

Lemma tokens_spaces sp l :
  Forall (fun c => is_space c = true) sp -> tokens (sp ++ l) = tokens l.
Proof.
  induction 1 as [|c sp Hc _ IH]; [reflexivity|].
  unfold tokens in *. simpl. rewrite Hc. simpl. exact IH.
Qed.

Lemma tokens_word t l :
  is_token t -> stops (fun c => negb (is_space c)) l ->
  tokens (t ++ l) = t :: tokens l.
Proof.
  intros [Hne Ht] Hl. unfold tokens.
  destruct l as [|c l].
  - rewrite (fields_word t [] Ht [] []) by reflexivity.
    rewrite app_nil_r. simpl. destruct t; [contradiction|reflexivity].
  - simpl in Hl. apply negb_false_iff in Hl.
    rewrite (fields_word t (c :: l) Ht [] (fields l))
      by (simpl; rewrite Hl; reflexivity).
    rewrite app_nil_r. simpl. rewrite Hl. simpl.
    destruct t; [contradiction|reflexivity].
Qed.

Lemma tokens_nil : tokens [] = [].
Proof. reflexivity. Qed.

Lemma stops_blank l : stops (fun c => negb (is_space c)) (" "%char :: l).
Proof. reflexivity. Qed.

Lemma tokens_unwords ts : Forall is_token ts -> tokens (unwords ts) = ts.
Proof.
  induction 1 as [|t ts Ht Hts IH]; [reflexivity|].
  destruct ts as [|t' ts].
  - simpl. rewrite <- (app_nil_r t) at 1.
    rewrite tokens_word; [reflexivity | exact Ht | exact I].
  - change (unwords (t :: t' :: ts)) with (t ++ " "%char :: unwords (t' :: ts)).
    rewrite tokens_word; [| exact Ht | apply stops_blank].
    change (" "%char :: unwords (t' :: ts))
      with ([" "%char] ++ unwords (t' :: ts)).
    rewrite tokens_spaces by (repeat constructor).
    rewrite IH. reflexivity.
Qed.

(** *** The loops of [runcmd] on a buffer split at the current position *)

Definition space_char (c : ascii) : bool :=
  negb (char_eqb c NUL) && is_space c.

Definition arg_char (c : ascii) : bool :=
  negb (char_eqb c NUL) && negb (is_space c).

Lemma peek_app pre suf :
  peek (pre ++ suf) (length pre) = hd NUL suf.
Proof.
  unfold peek. rewrite lookup_app_r by lia. rewrite Nat.sub_diag.
  destruct suf; reflexivity.
Qed.

Lemma at_space_app pre suf :
  at_space (pre ++ suf) (length pre) = space_char (hd NUL suf).
Proof. unfold at_space. rewrite peek_app. reflexivity. Qed.

Lemma at_arg_app pre suf :
  at_arg (pre ++ suf) (length pre) = arg_char (hd NUL suf).
Proof. unfold at_arg. rewrite peek_app. reflexivity. Qed.

Lemma stops_hd p l : p NUL = false -> stops p l -> p (hd NUL l) = false.
Proof. intros Hp. destruct l; simpl; auto. Qed.

Lemma insert_at_split {A} (pre : list A) x y suf :
  <[length pre := y]> (pre ++ x :: suf) = (pre ++ [y]) ++ suf.
Proof.
  rewrite insert_app_r_alt by lia. rewrite Nat.sub_diag. simpl.
  rewrite <- app_assoc. reflexivity.
Qed.

Lemma length_snoc {A} (l : list A) x : length (l ++ [x]) = S (length l).
Proof. rewrite length_app. simpl. lia. Qed.

(** The first loop overwrites a run of whitespace with NULs. *)
Lemma gobble_spaces sp : forall pre b,
  Forall (fun c => space_char c = true) sp -> stops space_char b ->
  gobble (pre ++ sp ++ b) (length pre) =
  (pre ++ repeat NUL (length sp) ++ b, (length pre + length sp)%nat).
Proof.
  induction sp as [|c sp IH]; intros pre b Hsp Hb.
  - simpl. rewrite gobble_step, at_space_app.
    rewrite (stops_hd space_char b eq_refl Hb), Nat.add_0_r. reflexivity.
  - inversion Hsp as [|? ? Hc Hsp']; subst.
    rewrite gobble_step, at_space_app. simpl hd. rewrite Hc.
    simpl app. rewrite insert_at_split.
    rewrite <- (length_snoc pre NUL), IH by assumption.
    rewrite length_snoc. simpl. rewrite <- app_assoc.
    f_equal. lia.
Qed.

(** The second loop runs to the end of the argument. *)
Lemma scan_word t : forall pre b,
  Forall (fun c => arg_char c = true) t -> stops arg_char b ->
  scan (pre ++ t ++ b) (length pre) = (length pre + length t)%nat.
Proof.
  induction t as [|c t IH]; intros pre b Ht Hb.
  - simpl. rewrite scan_step, at_arg_app.
    rewrite (stops_hd arg_char b eq_refl Hb). lia.
  - inversion Ht as [|? ? Hc Ht']; subst.
    rewrite scan_step, at_arg_app. simpl hd. rewrite Hc.
    replace (pre ++ (c :: t) ++ b) with ((pre ++ [c]) ++ t ++ b)
      by (rewrite <- app_assoc; reflexivity).
    rewrite <- (length_snoc pre c), IH by assumption.
    rewrite length_snoc. simpl. lia.
Qed.

(** Every list is a run of characters satisfying [p] followed by a list
    that stops it. *)
Lemma split_run (p : ascii -> bool) l :
  exists a b, l = a ++ b /\ Forall (fun c => p c = true) a /\ stops p b.
Proof.
  induction l as [|c l (a & b & -> & Ha & Hb)].
  - exists [], []. repeat split. constructor.
  - destruct (p c) eqn:E.
    + exists (c :: a), b. repeat split; [constructor; assumption | exact Hb].
    + exists [], (c :: a ++ b). repeat split; [constructor | exact E].
Qed.

(** The buffer once [runcmd] has gone through it: every whitespace
    character overwritten with NUL. *)
Definition zap (l : list ascii) : list ascii :=
  map (fun c => if is_space c then NUL else c) l.

Lemma zap_spaces sp :
  Forall (fun c => space_char c = true) sp -> zap sp = repeat NUL (length sp).
Proof.
  induction 1 as [|c sp Hc _ IH]; [reflexivity|].
  simpl. rewrite IH. unfold space_char in Hc.
  apply andb_prop in Hc as [_ ->]. reflexivity.
Qed.

Lemma zap_word t :
  Forall (fun c => arg_char c = true) t -> zap t = t.
Proof.
  induction 1 as [|c t Hc _ IH]; [reflexivity|].
  simpl. rewrite IH. unfold arg_char in Hc.
  apply andb_prop in Hc as [_ Hc]. apply negb_true_iff in Hc.
  rewrite Hc. reflexivity.
Qed.

Lemma upto_NUL_word t r :
  Forall (fun c => arg_char c = true) t -> hd NUL r = NUL ->
  upto_NUL (t ++ r) = t.
Proof.
  intros Ht Hr. induction Ht as [|c t Hc _ IH]; simpl.
  - destruct r as [|c r]; [reflexivity|]. simpl in Hr. subst c. reflexivity.
  - unfold arg_char in Hc. apply andb_prop in Hc as [Hc _].
    apply negb_true_iff in Hc. rewrite Hc, IH. reflexivity.
Qed.

Lemma space_char_is_space c : space_char c = is_space c.
Proof.
  unfold space_char. destruct (char_eqb c NUL) eqn:E; [|reflexivity].
  apply Ascii.eqb_eq in E. subst c. reflexivity.
Qed.

Lemma arg_char_not_space c : c <> NUL -> arg_char c = negb (is_space c).
Proof.
  intros Hc. unfold arg_char.
  destruct (char_eqb c NUL) eqn:E; [|reflexivity].
  apply Ascii.eqb_eq in E. contradiction.
Qed.

(** The parsing loop against the specification: started at the end of
    [pre] with [argv] already collected, it either collects a pointer to
    each token of the rest, leaving every whitespace character
    overwritten, or gives up when a sixteenth pointer would be needed. *)
Lemma parse_spec n : forall suf pre argv,
  (length suf < n)%nat -> NUL ∉ suf ->
  Z.of_nat (length argv) <= MAXARGS - 1 ->
  if Z.of_nat (length argv + length (tokens suf)) <=? MAXARGS - 1
  then exists ptrs,
      parse (pre ++ suf) (length pre) argv =
        Args (pre ++ zap suf) (argv ++ ptrs) /\
      map (cstr_at (pre ++ zap suf)) ptrs = tokens suf
  else parse (pre ++ suf) (length pre) argv = TooMany.
Proof.
  induction n as [|n IH]; intros suf pre argv Hlen Hnul Hargc; [lia|].
  destruct (split_run space_char suf) as (sp & b & -> & Hsp & Hb).
  rewrite parse_step, gobble_spaces by assumption.
  rewrite tokens_spaces
    by (eapply Forall_impl; [exact Hsp|];
        intros c Hc; rewrite <- space_char_is_space; exact Hc).
  set (pre1 := pre ++ repeat NUL (length sp)).
  assert (Hl1 : (length pre + length sp)%nat = length pre1).
  { unfold pre1. rewrite length_app, repeat_length. reflexivity. }
  rewrite Hl1.
  replace (pre ++ repeat NUL (length sp) ++ b) with (pre1 ++ b)
    by (unfold pre1; rewrite <- app_assoc; reflexivity).
  cbv beta iota zeta. rewrite peek_app.
  destruct b as [|c b'].
  - (* the terminator: the loop is left *)
    simpl hd. rewrite tokens_nil, Nat.add_0_r.
    replace (Z.of_nat (length argv) <=? MAXARGS - 1) with true
      by (symmetry; apply Z.leb_le; exact Hargc).
    exists []. rewrite !app_nil_r. simpl. unfold pre1.
    rewrite (zap_spaces sp Hsp). split; reflexivity.
  - (* an argument starts here *)
    assert (Hc : c <> NUL).
    { intros ->. apply Hnul. apply list_elem_of_In, in_or_app. right. left.
      reflexivity. }
    assert (Hca : arg_char c = true).
    { rewrite arg_char_not_space by exact Hc. simpl in Hb.
      rewrite space_char_is_space in Hb. rewrite Hb. reflexivity. }
    simpl hd.
    replace (char_eqb c NUL) with false
      by (symmetry; apply Ascii.eqb_neq; exact Hc).
    destruct (split_run arg_char (c :: b')) as (t & b2 & Heq & Ht & Hb2).
    assert (Hne : t <> []).
    { intros ->. simpl in Heq. subst b2. simpl in Hb2. congruence. }
    rewrite Heq in *.
    assert (Hnul2 : NUL ∉ b2).
    { intros Hin. apply Hnul. apply list_elem_of_In.
      apply in_or_app. right. apply in_or_app. right.
      apply list_elem_of_In. exact Hin. }
    assert (Hb2' : stops (fun c => negb (is_space c)) b2).
    { destruct b2 as [|c2 b2]; [exact I|]. simpl in *.
      rewrite <- arg_char_not_space; [exact Hb2|].
      intros ->. apply Hnul2. left. }
    assert (Htok : is_token t).
    { split; [exact Hne|]. eapply Forall_impl; [exact Ht|].
      intros x Hx. unfold arg_char in Hx.
      apply andb_prop in Hx as [_ Hx]. apply negb_true_iff in Hx. exact Hx. }
    rewrite (tokens_word t b2 Htok Hb2'). simpl length.
    destruct (Z.of_nat (length argv) =? MAXARGS - 1) eqn:Efull.
    + (* no slot left *)
      apply Z.eqb_eq in Efull.
      replace (Z.of_nat (length argv + S (length (tokens b2))) <=? MAXARGS - 1)
        with false by (symmetry; apply Z.leb_gt; lia).
      reflexivity.
    + apply Z.eqb_neq in Efull.
      rewrite scan_word by assumption.
      replace (pre1 ++ t ++ b2) with ((pre1 ++ t) ++ b2)
        by (rewrite <- app_assoc; reflexivity).
      rewrite <- length_app.
      assert (Hlen2 : (length b2 < n)%nat).
      { rewrite !length_app in Hlen. destruct t; [contradiction|].
        simpl in Hlen. lia. }
      assert (Hargc2 : Z.of_nat (length (argv ++ [length pre1])) <= MAXARGS - 1).
      { rewrite length_snoc. lia. }
      pose proof (IH b2 (pre1 ++ t) (argv ++ [length pre1]) Hlen2 Hnul2 Hargc2)
        as Hrec.
      rewrite length_snoc in Hrec.
      replace (S (length argv) + length (tokens b2))%nat
        with (length argv + S (length (tokens b2)))%nat in Hrec by lia.
      assert (Hmem : (pre1 ++ t) ++ zap b2 = pre ++ zap (sp ++ t ++ b2)).
      { unfold zap at 2. rewrite !map_app. fold (zap sp) (zap t) (zap b2).
        rewrite (zap_spaces sp Hsp), (zap_word t Ht). unfold pre1.
        rewrite <- !app_assoc. reflexivity. }
      destruct (Z.of_nat (length argv + S (length (tokens b2))) <=? MAXARGS - 1);
        [|exact Hrec].
      destruct Hrec as (ptrs & Hrun & Hstr).
      exists (length pre1 :: ptrs). rewrite <- Hmem. split.
      * rewrite Hrun. f_equal. rewrite <- app_assoc. reflexivity.
      * simpl. rewrite Hstr. f_equal.
        unfold cstr_at. rewrite <- app_assoc, drop_app_length.
        apply upto_NUL_word; [exact Ht|].
        destruct b2 as [|c2 b2]; [reflexivity|]. simpl in *.
        apply negb_false_iff in Hb2'. rewrite Hb2'. reflexivity.
Qed.

Lemma runcmd_argv_spec line :
  NUL ∉ line ->
  runcmd_argv line =
  if Z.of_nat (length (tokens line)) <=? MAXARGS - 1
  then Some (tokens line) else None.
Proof.
  intros Hnul. unfold runcmd_argv.
  pose proof (parse_spec (S (length line)) line [] [] (Nat.lt_succ_diag_r _) Hnul
                ltac:(simpl; unfold MAXARGS; lia)) as H.
  simpl in H.
  destruct (Z.of_nat (length (tokens line)) <=? MAXARGS - 1).
  - destruct H as (ptrs & -> & Hstr). rewrite Hstr. reflexivity.
  - rewrite H. reflexivity.
Qed.

(** C6: for a line with at most MAXARGS-1 = 15 whitespace-separated
    tokens, the argument strings [runcmd] parses out of the buffer are
    exactly the tokens of the line, in order; in particular a line made
    of whitespace-free tokens joined by blanks gives back those tokens
    unchanged. *)
Theorem tokenizer_preserves_tokens line :
  NUL ∉ line ->
  Z.of_nat (length (tokens line)) <= MAXARGS - 1 ->
  runcmd_argv line = Some (tokens line) /\
  (forall ts, Forall is_token ts -> line = unwords ts ->
              runcmd_argv line = Some ts).
Proof.
  intros Hnul Hmax.
  assert (H : runcmd_argv line = Some (tokens line)).
  { rewrite runcmd_argv_spec by exact Hnul.
    apply Z.leb_le in Hmax. rewrite Hmax. reflexivity. }
  split; [exact H|].
  intros ts Hts ->. rewrite H, tokens_unwords by exact Hts. reflexivity.
Qed.

Ltac no_NUL :=
  let H := fresh in
  intros H; apply list_elem_of_In in H; simpl in H;
  repeat (destruct H as [H | H]; [discriminate H|]); exact H.

Lemma tokenizer_preserves_tokens_witness :
  runcmd_argv (lit "chcolor rg") = Some (tokens (lit "chcolor rg")) /\
  (forall ts, Forall is_token ts -> lit "chcolor rg" = unwords ts ->
              runcmd_argv (lit "chcolor rg") = Some ts).
Proof.
  apply (tokenizer_preserves_tokens (lit "chcolor rg")).
  - no_NUL.
  - vm_compute. discriminate.
Defined.

(** A line with leading blanks, a tab between the tokens and a trailing
    blank. *)
Definition chcolor_line : list ascii :=
  lit "  chcolor" ++ "009"%char :: lit "rg ".

Example chcolor_line_argv :
  runcmd_argv chcolor_line = Some [lit "chcolor"; lit "rg"].
Proof. reflexivity. Qed.

Example chcolor_line_tokens :
  tokens chcolor_line = [lit "chcolor"; lit "rg"].
Proof. reflexivity. Qed.

Example chcolor_unwords :
  unwords [lit "chcolor"; lit "rg"] = lit "chcolor rg".
Proof. reflexivity. Qed.

Example fifteen_tokens_accepted :
  runcmd_argv (lit "a b c d e f g h i j k l m n o") =
  Some (map lit ["a"; "b"; "c"; "d"; "e"; "f"; "g"; "h"; "i"; "j"; "k"; "l";
                 "m"; "n"; "o"]%string).
Proof. reflexivity. Qed.

Example sixteen_tokens_rejected :
  runcmd_argv (lit "a b c d e f g h i j k l m n o p") = None.
Proof. reflexivity. Qed.

Lemma runcmd_argv_too_many line :
  NUL ∉ line -> MAXARGS - 1 < Z.of_nat (length (tokens line)) ->
  runcmd_argv line = None.
Proof.
  intros Hnul Hmany. rewrite runcmd_argv_spec by exact Hnul.
  apply Z.leb_gt in Hmany. rewrite Hmany. reflexivity.
Qed.

(** C7: on a line with more tokens than [runcmd] has room for, that is
    more than MAXARGS-1 = 15 and so in particular more than the maximum
    MAXARGS = 16 of the message, [runcmd] gives up parsing, prints the
    too-many-arguments message and returns the non-negative status 0, so
    the console loop goes on; nothing else happens, and the outcome is
    the same whatever the command table holds: no handler is called. *)
Theorem runcmd_too_many_arguments cmds line tf w :
  NUL ∉ line ->
  MAXARGS - 1 < Z.of_nat (length (tokens line)) ->
  exists status,
    runcmd_with cmds line tf w =
    (Val status,
     add_out [Cprintf ("Too many arguments (max %d)" ++ nl) [AInt MAXARGS]] w)
    /\ 0 <= status.
Proof.
  intros Hnul Hmany. exists 0. split; [|lia].
  unfold runcmd_with.
  rewrite runcmd_argv_too_many; [reflexivity | exact Hnul | exact Hmany].
Qed.

Definition round_up (a n : Z) : Z := (a + n - 1) / n * n.

Definition seventeen_tokens : list ascii :=
  lit "backtrace 1 2 3 4 5 6 7 8 9 10 11 12 13 14 15 16".

Lemma runcmd_too_many_arguments_witness :
  exists status,
    runcmd 256 sample_resolver junk 0 0 0 0 0 0 round_up 8 seventeen_tokens 0 stack_world =
    (Val status,
     add_out [Cprintf ("Too many arguments (max %d)" ++ nl) [AInt MAXARGS]]
             stack_world)
    /\ 0 <= status.
Proof.
  apply (runcmd_too_many_arguments
           (commands 256 sample_resolver junk 0 0 0 0 0 0 round_up 8)
           seventeen_tokens 0 stack_world).
  - no_NUL.
  - vm_compute. reflexivity.
Defined.

(** The rejection already happens at sixteen tokens, one below what the
    message announces. *)
Example runcmd_sixteen_tokens :
  runcmd 256 sample_resolver junk 0 0 0 0 0 0 round_up 8
         (lit "backtrace 1 2 3 4 5 6 7 8 9 10 11 12 13 14 15") 0 stack_world =
  (Val 0,
   add_out [Cprintf ("Too many arguments (max %d)" ++ nl) [AInt MAXARGS]]
           stack_world).
Proof. reflexivity. Qed.

(** The command table agrees with the names and descriptions [mon_help]
    prints. *)
Lemma commands_info FL_TF debuginfo_eip funn_junk s e t d n k r fuel :
  map (fun c => (name c, desc c))
      (commands FL_TF debuginfo_eip funn_junk s e t d n k r fuel) = command_info.
Proof. reflexivity. Qed.

(** * Further properties of the interpreter *)

(** ** Command lookup *)

Lemma cstr_eqb_true (a b : cstring) : cstr_eqb a b = true <-> a = b.
Proof. unfold cstr_eqb. destruct (decide (a = b)); split; congruence. Qed.

Lemma cstr_eqb_false (a b : cstring) : cstr_eqb a b = false <-> a <> b.
Proof. unfold cstr_eqb. destruct (decide (a = b)); split; congruence. Qed.

(** The lookup loop falls through a table that does not hold the name. *)
Lemma dispatch_no_match cmds : forall argc a0 rest tf w,
  Forall (fun c => lit (name c) <> a0) cmds ->
  dispatch cmds argc (a0 :: rest) tf w =
  (Val 0, add_out [Cprintf ("Unknown command '%s'" ++ nl) [AStr a0]] w).
Proof.
  induction cmds as [|c cmds IH]; intros argc a0 rest tf w Hno.
  - reflexivity.
  - inversion Hno as [|? ? Hc Hrest]; subst.
    simpl. unfold bind at 1. simpl.
    replace (cstr_eqb a0 (lit (name c))) with false
      by (symmetry; apply cstr_eqb_false; congruence).
    apply IH, Hrest.
Qed.

(** The lookup loop calls the first entry that holds the name. *)
Lemma dispatch_first_match before : forall c after argc a0 rest tf w,
  Forall (fun c' => lit (name c') <> a0) before ->
  lit (name c) = a0 ->
  dispatch (before ++ c :: after) argc (a0 :: rest) tf w =
  func c argc (a0 :: rest) tf w.
Proof.
  induction before as [|b before IH]; intros c after argc a0 rest tf w Hno Hc.
  - simpl. unfold bind at 1. simpl.
    replace (cstr_eqb a0 (lit (name c))) with true
      by (symmetry; apply cstr_eqb_true; congruence).
    reflexivity.
  - inversion Hno as [|? ? Hb Hrest]; subst.
    simpl. unfold bind at 1. simpl.
    replace (cstr_eqb (lit (name c)) (lit (name b))) with false
      by (symmetry; apply cstr_eqb_false; congruence).
    apply IH; [exact Hrest | reflexivity].
Qed.

Lemma runcmd_with_tokens cmds line tf w a0 rest :
  NUL ∉ line ->
  tokens line = a0 :: rest ->
  Z.of_nat (length (tokens line)) <= MAXARGS - 1 ->
  runcmd_with cmds line tf w =
  dispatch cmds (Z.of_nat (length (a0 :: rest))) (a0 :: rest) tf w.
Proof.
  intros Hnul Htok Hmax. unfold runcmd_with.
  rewrite runcmd_argv_spec by exact Hnul.
  apply Z.leb_le in Hmax. rewrite Hmax, Htok. reflexivity.
Qed.

(** X1: a line whose first token names no entry of the command table
    makes [runcmd] print exactly one "Unknown command" message carrying
    that token, call no handler and return 0. *)
Theorem runcmd_unknown_command cmds line tf w a0 rest :
  NUL ∉ line ->
  tokens line = a0 :: rest ->
  Z.of_nat (length (tokens line)) <= MAXARGS - 1 ->
  Forall (fun c => lit (name c) <> a0) cmds ->
  runcmd_with cmds line tf w =
  (Val 0, add_out [Cprintf ("Unknown command '%s'" ++ nl) [AStr a0]] w).
Proof.
  intros Hnul Htok Hmax Hno.
  rewrite (runcmd_with_tokens cmds line tf w a0 rest) by assumption.
  apply dispatch_no_match, Hno.
Qed.

Lemma runcmd_unknown_command_witness :
  runcmd 256 sample_resolver junk 0 0 0 0 0 0 round_up 8
         (lit "Help me") 0 stack_world =
  (Val 0, add_out [Cprintf ("Unknown command '%s'" ++ nl) [AStr (lit "Help")]]
                  stack_world).
Proof.
  apply (runcmd_unknown_command
           (commands 256 sample_resolver junk 0 0 0 0 0 0 round_up 8)
           (lit "Help me") 0 stack_world (lit "Help") [lit "me"]).
  - no_NUL.
  - reflexivity.
  - vm_compute. discriminate.
  - repeat constructor; discriminate.
Defined.

(** X2: [runcmd] hands the line to the first entry of the command table
    whose name is exactly the first token, with [argc] the number of
    tokens and [argv] the tokens themselves; entries after it are not
    looked at. *)
Theorem runcmd_calls_first_match before c after line tf w a0 rest :
  NUL ∉ line ->
  tokens line = a0 :: rest ->
  Z.of_nat (length (tokens line)) <= MAXARGS - 1 ->
  Forall (fun c' => lit (name c') <> a0) before ->
  lit (name c) = a0 ->
  runcmd_with (before ++ c :: after) line tf w =
  func c (Z.of_nat (length (a0 :: rest))) (a0 :: rest) tf w.
Proof.
  intros Hnul Htok Hmax Hno Hc.
  rewrite (runcmd_with_tokens _ line tf w a0 rest) by assumption.
  apply dispatch_first_match; assumption.
Qed.

Lemma runcmd_calls_first_match_witness :
  runcmd 256 sample_resolver junk 0 0 0 0 0 0 round_up 8
         (lit " chcolor  rg") 0 stack_world =
  mon_chcolor 2 [lit "chcolor"; lit "rg"] 0 stack_world.
Proof.
  apply (runcmd_calls_first_match
           (take 3 (commands 256 sample_resolver junk 0 0 0 0 0 0 round_up 8))
           {| name := "chcolor"; desc := "Change the default display color";
              func := mon_chcolor |}
           (drop 4 (commands 256 sample_resolver junk 0 0 0 0 0 0 round_up 8))
           (lit " chcolor  rg") 0 stack_world (lit "chcolor") [lit "rg"]).
  - no_NUL.
  - reflexivity.
  - vm_compute. discriminate.
  - repeat constructor; discriminate.
  - reflexivity.
Defined.

Lemma is_space_not_NUL c : is_space c = true -> c <> NUL.
Proof. intros H ->. discriminate H. Qed.

Lemma parse_blank_line line :
  Forall (fun c => is_space c = true) line ->
  parse line 0 [] = Args (repeat NUL (length line)) [].
Proof.
  intros Hsp.
  assert (Hsc : Forall (fun c => space_char c = true) line).
  { eapply Forall_impl; [exact Hsp|].
    intros c Hc. rewrite space_char_is_space. exact Hc. }
  pose proof (gobble_spaces line [] [] Hsc I) as Hg.
  rewrite app_nil_r in Hg. simpl in Hg.
  rewrite parse_step, Hg. cbv beta iota zeta.
  unfold peek. rewrite lookup_ge_None_2 by (rewrite app_nil_r, repeat_length; lia).
  rewrite app_nil_r. reflexivity.
Qed.

(** X3: on a line that holds nothing but whitespace (the empty line
    included) [runcmd] overwrites every character of the buffer with NUL,
    finds no argument, and returns 0 without calling a handler: nothing
    is printed, and the display attribute and the trap frames are as
    before. *)
Theorem runcmd_blank_line cmds line tf w :
  Forall (fun c => is_space c = true) line ->
  parse line 0 [] = Args (repeat NUL (length line)) [] /\
  exists w',
    runcmd_with cmds line tf w = (Val 0, w') /\
    w_out w' = w_out w /\ w_cga w' = w_cga w /\ w_tfs w' = w_tfs w.
Proof.
  intros Hsp. split; [apply parse_blank_line, Hsp|].
  exists w. unfold runcmd_with, runcmd_argv.
  rewrite parse_blank_line by exact Hsp. repeat split.
Qed.

Lemma runcmd_blank_line_witness :
  parse (" "%char :: "009"%char :: lit "  ") 0 [] =
    Args (repeat NUL (length (" "%char :: "009"%char :: lit "  "))) [] /\
  exists w',
    runcmd 256 sample_resolver junk 0 0 0 0 0 0 round_up 8
           (" "%char :: "009"%char :: lit "  ") 4096 bp_world = (Val 0, w') /\
    w_out w' = w_out bp_world /\ w_cga w' = w_cga bp_world /\
    w_tfs w' = w_tfs bp_world.
Proof.
  apply (runcmd_blank_line
           (commands 256 sample_resolver junk 0 0 0 0 0 0 round_up 8)).
  repeat constructor.
Defined.

(** ** The buffer beyond its terminator *)

Lemma peek_cut m t p :
  (p <= length m)%nat -> peek (m ++ NUL :: t) p = peek m p.
Proof.
  intros Hp. unfold peek.
  destruct (Nat.eq_dec p (length m)) as [-> | Hne].
  - rewrite lookup_app_r, Nat.sub_diag by lia.
    rewrite (lookup_ge_None_2 m) by lia. reflexivity.
  - rewrite lookup_app_l by lia. reflexivity.
Qed.

Lemma at_space_cut m t p :
  (p <= length m)%nat -> at_space (m ++ NUL :: t) p = at_space m p.
Proof. intros Hp. unfold at_space. rewrite peek_cut by exact Hp. reflexivity. Qed.

Lemma at_arg_cut m t p :
  (p <= length m)%nat -> at_arg (m ++ NUL :: t) p = at_arg m p.
Proof. intros Hp. unfold at_arg. rewrite peek_cut by exact Hp. reflexivity. Qed.

Lemma gobble_cut t m p :
  (p <= length m)%nat ->
  gobble (m ++ NUL :: t) p = ((gobble m p).1 ++ NUL :: t, (gobble m p).2).
Proof.
  funelim (gobble m p); intros Hp.
  - rewrite gobble_step, at_space_cut, e by exact Hp.
    pose proof (at_space_lt _ _ e) as Hlt.
    rewrite insert_app_l by exact Hlt.
    apply H. rewrite length_insert. lia.
  - rewrite gobble_step, at_space_cut, e by exact Hp. reflexivity.
Qed.

Lemma scan_cut t m p :
  (p <= length m)%nat -> scan (m ++ NUL :: t) p = scan m p.
Proof.
  funelim (scan m p); intros Hp.
  - rewrite scan_step, at_arg_cut, e by exact Hp.
    pose proof (at_arg_lt _ _ e) as Hlt.
    apply H. lia.
  - rewrite scan_step, at_arg_cut, e by exact Hp. reflexivity.
Qed.

Lemma gobble_le m p : (p <= length m)%nat -> ((gobble m p).2 <= length m)%nat.
Proof.
  funelim (gobble m p); intros Hp; [|exact Hp].
  pose proof (at_space_lt _ _ e) as Hlt.
  rewrite length_insert in H. apply H. lia.
Qed.

Lemma scan_bound m p : (p <= length m)%nat -> (scan m p <= length m)%nat.
Proof.
  funelim (scan m p); intros Hp; [|exact Hp].
  pose proof (at_arg_lt _ _ e) as Hlt. apply H. lia.
Qed.

(** What follows a NUL is neither read nor written by the parsing loop. *)
Lemma parse_cut t m p argv :
  (p <= length m)%nat ->
  parse (m ++ NUL :: t) p argv =
  match parse m p argv with
  | Args m' a => Args (m' ++ NUL :: t) a
  | TooMany => TooMany
  end.
Proof.
  funelim (parse m p argv); intros Hp;
    pose proof (gobble_le mem p Hp) as Hle;
    pose proof (gobble_length mem p) as Hlen;
    rewrite e in Hle, Hlen; simpl in Hle, Hlen;
    rewrite parse_step, gobble_cut, e by exact Hp; cbv beta iota zeta;
    simpl fst; simpl snd;
    rewrite peek_cut by lia.
  - rewrite e0. reflexivity.
  - rewrite e0, e1. reflexivity.
  - rewrite e0, e1. rewrite scan_cut by lia.
    apply H. apply scan_bound. lia.
Qed.

(** The pointers stored in [argv] stay inside the buffer, whose length
    does not change. *)
Lemma parse_pointers m p argv :
  (p <= length m)%nat ->
  Forall (fun q => (q <= length m)%nat) argv ->
  match parse m p argv with
  | Args m' a => length m' = length m /\ Forall (fun q => (q <= length m)%nat) a
  | TooMany => True
  end.
Proof.
  funelim (parse m p argv); intros Hp Hargv; [| exact I |];
    pose proof (gobble_le mem p Hp) as Hle;
    pose proof (gobble_length mem p) as Hlen;
    rewrite e in Hle, Hlen; simpl in Hle, Hlen.
  - split; assumption.
  - rewrite <- Hlen in *. apply H.
    + apply scan_bound. lia.
    + apply Forall_app. split; [exact Hargv|].
      constructor; [lia | constructor].
Qed.

Lemma upto_NUL_cut (l t : list ascii) : upto_NUL (l ++ NUL :: t) = upto_NUL l.
Proof.
  induction l as [|c l IH]; [reflexivity|]. simpl.
  destruct (char_eqb c NUL); [reflexivity|]. now rewrite IH.
Qed.

Lemma cstr_at_cut m t q :
  (q <= length m)%nat -> cstr_at (m ++ NUL :: t) q = cstr_at m q.
Proof.
  intros Hq. unfold cstr_at. rewrite drop_app_le by exact Hq.
  apply upto_NUL_cut.
Qed.

Lemma runcmd_argv_cut line rest :
  runcmd_argv (line ++ NUL :: rest) = runcmd_argv line.
Proof.
  unfold runcmd_argv.
  rewrite parse_cut by lia.
  pose proof (parse_pointers line 0 [] ltac:(lia) ltac:(constructor)) as Hp.
  destruct (parse line 0 []) as [m' a|]; [|reflexivity].
  destruct Hp as [Hlen Hptr]. f_equal.
  apply map_ext_in. intros q Hq.
  apply cstr_at_cut. rewrite Hlen.
  rewrite Forall_forall in Hptr. apply Hptr, list_elem_of_In, Hq.
Qed.

(** X4: the arguments [runcmd] parses out of a buffer depend only on what
    precedes its first NUL, and the parsing loop leaves everything from
    that NUL on as it was. *)
Theorem runcmd_stops_at_NUL line rest :
  runcmd_argv (line ++ NUL :: rest) = runcmd_argv line /\
  match parse line 0 [] with
  | Args m' a => parse (line ++ NUL :: rest) 0 [] = Args (m' ++ NUL :: rest) a
  | TooMany => parse (line ++ NUL :: rest) 0 [] = TooMany
  end.
Proof.
  split; [apply runcmd_argv_cut|].
  rewrite parse_cut by lia. destruct (parse line 0 []); reflexivity.
Qed.

Example readline_buffer_argv :
  runcmd_argv (lit "si" ++ NUL :: lit " left over from the last line") =
  Some [lit "si"].
Proof. reflexivity. Qed.

(** ** What is handed to the handlers *)

Lemma fields_chars l :
  Forall (Forall (fun c => is_space c = false /\ c ∈ l)) (fields l).
Proof.
  induction l as [|c l IH]; simpl.
  - repeat constructor.
  - assert (IH' : Forall (Forall (fun x => is_space x = false /\ x ∈ c :: l))
                         (fields l)).
    { eapply Forall_impl; [exact IH|]. intros f Hf.
      eapply Forall_impl; [exact Hf|]. intros x [Hx Hin].
      split; [exact Hx | now right]. }
    destruct (is_space c) eqn:E.
    + constructor; [constructor | exact IH'].
    + destruct (fields l) as [|f fs].
      { constructor; [|constructor].
        constructor; [split; [exact E | left] | constructor]. }
      inversion IH' as [|? ? Hf Hfs]; subst.
      constructor; [|exact Hfs].
      constructor; [split; [exact E | left] | exact Hf].
Qed.

(** An argument as the handlers get it: at least one character, none of
    them whitespace or NUL. *)
Definition is_argument (a : cstring) : Prop :=
  a <> [] /\ Forall (fun c => is_space c = false /\ c <> NUL) a.

Lemma tokens_arguments l : NUL ∉ l -> Forall is_argument (tokens l).
Proof.
  intros Hnul. apply Forall_forall. intros t Ht.
  apply list_elem_of_In in Ht. unfold tokens in Ht.
  apply List.filter_In in Ht as [Hin Hne].
  split; [destruct t; [discriminate | discriminate]|].
  pose proof (fields_chars l) as Hf. rewrite Forall_forall in Hf.
  eapply Forall_impl; [apply Hf, list_elem_of_In, Hin|].
  intros c [Hc Hcl]. split; [exact Hc|]. intros ->. contradiction.
Qed.

Lemma split_at_NUL (buf : list ascii) :
  NUL ∉ buf \/ exists l1 l2, buf = l1 ++ NUL :: l2 /\ NUL ∉ l1.
Proof.
  induction buf as [|c buf IH]; [left; apply not_elem_of_nil|].
  destruct (char_eqb c NUL) eqn:E.
  - apply Ascii.eqb_eq in E. subst c. right. exists [], buf.
    split; [reflexivity | apply not_elem_of_nil].
  - apply Ascii.eqb_neq in E. destruct IH as [Hn | (l1 & l2 & -> & Hn)].
    + left. intros Hin. apply elem_of_cons in Hin as [Heq | Hin]; auto.
    + right. exists (c :: l1), l2. split; [reflexivity|].
      intros Hin. apply elem_of_cons in Hin as [Heq | Hin]; auto.
Qed.

(** X5: whatever the buffer holds, the argument list [runcmd] builds has
    at most MAXARGS-1 = 15 entries (so that [argv[argc] = 0] stays inside
    [argv]), and every entry is a non-empty string without whitespace. *)
Theorem runcmd_argv_well_formed buf args :
  runcmd_argv buf = Some args ->
  Z.of_nat (length args) <= MAXARGS - 1 /\ Forall is_argument args.
Proof.
  intros H.
  assert (Hex : exists l, (NUL ∉ l) /\ runcmd_argv l = Some args).
  { destruct (split_at_NUL buf) as [Hn | (l1 & l2 & -> & Hn)].
    - exists buf. split; assumption.
    - exists l1. split; [exact Hn|].
      rewrite runcmd_argv_cut in H. exact H. }
  destruct Hex as (l & Hn & Hl).
  rewrite runcmd_argv_spec in Hl by exact Hn.
  destruct (Z.leb_spec (Z.of_nat (length (tokens l))) (MAXARGS - 1));
    [|discriminate].
  inversion Hl; subst args. split; [assumption|].
  apply tokens_arguments, Hn.
Qed.

Lemma runcmd_argv_well_formed_witness :
  Z.of_nat (length [lit "chcolor"; lit "rg"]) <= MAXARGS - 1 /\
  Forall is_argument [lit "chcolor"; lit "rg"].
Proof.
  apply (runcmd_argv_well_formed chcolor_line [lit "chcolor"; lit "rg"]).
  reflexivity.
Defined.

(** X6: on a line with at most MAXARGS-1 tokens the parsing loop leaves
    the buffer with every whitespace character overwritten by NUL and
    every other character as it was. *)
Theorem runcmd_overwrites_whitespace line :
  NUL ∉ line ->
  Z.of_nat (length (tokens line)) <= MAXARGS - 1 ->
  exists argv, parse line 0 [] = Args (zap line) argv.
Proof.
  intros Hnul Hmax.
  pose proof (parse_spec (S (length line)) line [] [] (Nat.lt_succ_diag_r _) Hnul
                ltac:(simpl; unfold MAXARGS; lia)) as H.
  simpl in H. apply Z.leb_le in Hmax. rewrite Hmax in H.
  destruct H as (ptrs & H & _). exists ptrs. exact H.
Qed.

Lemma runcmd_overwrites_whitespace_witness :
  exists argv, parse chcolor_line 0 [] = Args (zap chcolor_line) argv.
Proof.
  apply (runcmd_overwrites_whitespace chcolor_line).
  - no_NUL.
  - vm_compute. discriminate.
Defined.

Example zap_chcolor_line :
  zap chcolor_line = [NUL; NUL] ++ lit "chcolor" ++ [NUL] ++ lit "rg" ++ [NUL].
Proof. reflexivity. Qed.

(** * Further properties of the handlers *)

(** ** The status handed back to the console loop *)

(** A computation that, if it returns at all, returns 0. *)
Definition returns_zero (m : M Z) : Prop :=
  forall w r w', m w = (Val r, w') -> r = 0.

Lemma returns_zero_ret : returns_zero (ret 0).
Proof. intros w r w' H. inversion H. reflexivity. Qed.

Lemma returns_zero_bind {A} (m : M A) (k : A -> M Z) :
  (forall a, returns_zero (k a)) -> returns_zero (bind m k).
Proof.
  intros Hk w r w' H. apply bind_inv in H as (a & w1 & _ & H').
  eapply Hk, H'.
Qed.

Lemma returns_zero_if (b : bool) (m1 m2 : M Z) :
  returns_zero m1 -> returns_zero m2 -> returns_zero (if b then m1 else m2).
Proof. destruct b; auto. Qed.

Create HintDb status discriminated.
#[local] Hint Resolve returns_zero_ret returns_zero_if : status.
#[local] Hint Extern 1 (returns_zero (bind _ _)) =>
  apply returns_zero_bind; intros : status.

Lemma mon_help_status argc argv tf : returns_zero (mon_help argc argv tf).
Proof. unfold mon_help. auto with status. Qed.

Lemma mon_kerninfo_status s e t d n k r argc argv tf :
  returns_zero (mon_kerninfo s e t d n k r argc argv tf).
Proof. unfold mon_kerninfo. auto 20 with status. Qed.

Lemma mon_backtrace_status resolver funn fuel argc argv tf :
  returns_zero (mon_backtrace resolver funn fuel argc argv tf).
Proof. unfold mon_backtrace. auto with status. Qed.

Lemma mon_chcolor_status argc argv tf : returns_zero (mon_chcolor argc argv tf).
Proof. unfold mon_chcolor. auto with status. Qed.

Lemma mon_continue_status FL_TF argc argv tf :
  returns_zero (mon_continue FL_TF argc argv tf).
Proof. unfold mon_continue. auto 10 with status. Qed.

Lemma mon_si_status FL_TF argc argv tf :
  returns_zero (mon_si FL_TF argc argv tf).
Proof. unfold mon_si. auto 10 with status. Qed.

Lemma dispatch_status cmds argc argv tf :
  Forall (fun c => forall argc argv tf, returns_zero (func c argc argv tf)) cmds ->
  returns_zero (dispatch cmds argc argv tf).
Proof.
  induction 1 as [|c cmds Hc _ IH]; simpl; auto 10 with status.
Qed.

Lemma runcmd_with_status cmds buf tf :
  Forall (fun c => forall argc argv tf, returns_zero (func c argc argv tf)) cmds ->
  returns_zero (runcmd_with cmds buf tf).
Proof.
  intros Hc. unfold runcmd_with.
  destruct (runcmd_argv buf); auto using dispatch_status with status.
Qed.

Lemma runcmd_returns_zero FL_TF resolver funn s e t d n k r fuel buf tf :
  returns_zero (runcmd FL_TF resolver funn s e t d n k r fuel buf tf).
Proof.
  apply runcmd_with_status. unfold commands.
  repeat constructor; simpl; intros.
  - apply mon_help_status.
  - apply mon_kerninfo_status.
  - apply mon_backtrace_status.
  - apply mon_chcolor_status.
  - apply mon_continue_status.
  - apply mon_si_status.
Qed.

(** X7: whatever the line, the context and the state, a call of [runcmd]
    with the monitor's command table that returns at all returns 0: no
    built-in command, and no parsing error, hands the console loop the
    negative status that would end it. *)
Theorem runcmd_never_asks_to_exit
        FL_TF resolver funn s e t d n k r fuel buf tf w :
  match (runcmd FL_TF resolver funn s e t d n k r fuel buf tf w).1 with
  | Val status => status = 0 /\ (status <? 0) = false
  | Halt _ => True
  end.
Proof.
  destruct (runcmd FL_TF resolver funn s e t d n k r fuel buf tf w)
    as [[status | st] w'] eqn:H; [|exact I].
  apply runcmd_returns_zero in H. subst status. split; reflexivity.
Qed.

(** ** What the handlers leave alone *)

(** A computation whose only effect on the state is to add console
    output. *)
Definition output_only {A} (m : M A) : Prop :=
  forall w, exists es, (m w).2 = add_out es w.

Lemma output_only_ret {A} (a : A) : output_only (ret a).
Proof. intros w. exists []. symmetry. apply add_out_nil. Qed.

Lemma output_only_halt {A} (s : Stop) : output_only (@halt A s).
Proof. intros w. exists []. symmetry. apply add_out_nil. Qed.

Lemma output_only_cprintf fmt args : output_only (cprintf fmt args).
Proof. intros w. eexists. reflexivity. Qed.

Lemma output_only_bind {A B} (m : M A) (k : A -> M B) :
  output_only m -> (forall a, output_only (k a)) -> output_only (bind m k).
Proof.
  intros Hm Hk w. unfold bind.
  destruct (Hm w) as (es1 & H1).
  destruct (m w) as [[a | st] w1]; simpl in H1; subst w1.
  - destruct (Hk a (add_out es1 w)) as (es2 & H2).
    exists (es1 ++ es2). rewrite H2. apply add_out_app.
  - exists es1. reflexivity.
Qed.

Lemma output_only_if {A} (b : bool) (m1 m2 : M A) :
  output_only m1 -> output_only m2 -> output_only (if b then m1 else m2).
Proof. destruct b; auto. Qed.

Lemma output_only_load32 a : output_only (load32 a).
Proof.
  intros w. exists []. rewrite add_out_nil. unfold load32.
  destruct (w_mem w !! a); reflexivity.
Qed.

Lemma output_only_read_ebp : output_only read_ebp.
Proof. intros w. exists []. rewrite add_out_nil. reflexivity. Qed.

Lemma output_only_argv_get argv i : output_only (argv_get argv i).
Proof.
  unfold argv_get. destruct (argv !! i);
    [apply output_only_ret | apply output_only_halt].
Qed.

Lemma output_only_char_at object s i : output_only (char_at object s i).
Proof.
  unfold char_at. destruct (cstr_get s i);
    [apply output_only_ret | apply output_only_halt].
Qed.

Lemma output_only_funn_write funn i c : output_only (funn_write funn i c).
Proof.
  unfold funn_write. destruct ((0 <=? i) && (i <? FUNN_SIZE));
    [apply output_only_ret | apply output_only_halt].
Qed.

Lemma output_only_funn_string funn : output_only (funn_string funn).
Proof.
  unfold funn_string. destruct (funn_chars _ _ _);
    [apply output_only_ret | apply output_only_halt].
Qed.

Create HintDb frame discriminated.
#[local] Hint Resolve output_only_ret output_only_halt output_only_cprintf
  output_only_if output_only_load32 output_only_read_ebp output_only_argv_get
  output_only_char_at output_only_funn_write output_only_funn_string : frame.
#[local] Hint Extern 1 (output_only (bind _ _)) =>
  apply output_only_bind; [|intros] : frame.

Lemma output_only_copy_name n : forall i name funn,
  output_only (copy_name n i name funn).
Proof. induction n as [|n IH]; intros; simpl; auto with frame. Qed.

Lemma output_only_backtrace_loop resolver fuel : forall ebp funn,
  output_only (backtrace_loop resolver fuel ebp funn).
Proof.
  induction fuel as [|fuel IH]; intros; simpl;
    auto 30 using output_only_copy_name with frame.
Qed.

Lemma output_only_help_loop cs : output_only (help_loop cs).
Proof.
  induction cs as [|[nm ds] cs IH]; simpl; auto with frame.
Qed.

(** How a run of the backtrace can end when the reported name lengths
    fit: it returned, it is still walking, or a load from a frame slot
    faulted.  A store or a read outside [funn] or the name is not among
    them. *)
Definition walk_end {A} (r : Res A) : Prop :=
  match r with
  | Val _ => True
  | Halt OutOfFuel => True
  | Halt (Faulted (PageFault _)) => True
  | Halt _ => False
  end.

Lemma walk_end_load {B} a (k : Z -> M B) w :
  (forall v w', walk_end (k v w').1) -> walk_end (bind (load32 a) k w).1.
Proof.
  intros Hk. unfold bind, load32.
  destruct (w_mem w !! a); [apply Hk | exact I].
Qed.

Lemma backtrace_loop_ends resolver fuel :
  (forall eip, name_fits (resolver eip)) ->
  forall ebp funn w, walk_end (backtrace_loop resolver fuel ebp funn w).1.
Proof.
  intros Hres. induction fuel as [|fuel IH]; intros ebp funn w; [exact I|].
  simpl. destruct (ebp =? 0); [exact I|].
  apply walk_end_load. intros eip w0.
  destruct (funn_filled _ funn w0 (Hres eip)) as (funn1 & funn2 & Hc & Hw & Hs).
  rewrite (bind_val _ _ _ _ _ Hc), (bind_val _ _ _ _ _ (Hw w0)).
  do 6 (apply walk_end_load; intros ? ?).
  rewrite (bind_val _ _ _ _ _ (cprintf_run _ _ _)).
  rewrite (bind_val _ _ _ _ _ (Hs _)).
  rewrite (bind_val _ _ _ _ _ (cprintf_run _ _ _)).
  apply walk_end_load. intros ebp' w1. apply IH.
Qed.

Lemma add_out_fields es w :
  w_cga (add_out es w) = w_cga w /\ w_tfs (add_out es w) = w_tfs w /\
  exists es', w_out (add_out es w) = w_out w ++ es'.
Proof. repeat split. exists es. reflexivity. Qed.

Lemma help_loop_run cs : forall w,
  exists es, help_loop cs w = (Val tt, add_out es w).
Proof.
  induction cs as [|[nm ds] cs IH]; intros w.
  - exists []. simpl. rewrite add_out_nil. reflexivity.
  - simpl help_loop. rewrite (bind_val _ _ _ _ _ (cprintf_run _ _ _)).
    destruct (IH (add_out [Cprintf ("%s - %s" ++ nl)
                                   [AStr (lit nm); AStr (lit ds)]] w))
      as (es & ->).
    rewrite add_out_app. eexists. reflexivity.
Qed.

Lemma mon_kerninfo_run s e t d n k r argc argv tf w :
  exists es, mon_kerninfo s e t d n k r argc argv tf w = (Val 0, add_out es w).
Proof.
  unfold mon_kerninfo.
  repeat (rewrite (bind_val _ _ _ _ _ (cprintf_run _ _ _)), ?add_out_app).
  eexists. reflexivity.
Qed.

(** X8: [help], [kerninfo] and [backtrace] only inspect.  [help] and
    [kerninfo] always return 0.  With a resolver whose reported name
    lengths all fit [funn] (from 0 to 99, and not past the terminator of
    the name), [backtrace] ends only by returning, by a fault on a load
    from a frame slot, or not at all, never with an access outside
    [funn].  In each case the display attribute and the trap frames are
    as before, and console output has only been added to. *)
Theorem inspection_commands_only_print
        resolver funn s e t d n k r fuel argc argv tf w :
  (forall eip, name_fits (resolver eip)) ->
  (exists w', mon_help argc argv tf w = (Val 0, w') /\
              w_cga w' = w_cga w /\ w_tfs w' = w_tfs w /\
              exists es, w_out w' = w_out w ++ es) /\
  (exists w', mon_kerninfo s e t d n k r argc argv tf w = (Val 0, w') /\
              w_cga w' = w_cga w /\ w_tfs w' = w_tfs w /\
              exists es, w_out w' = w_out w ++ es) /\
  (let res := mon_backtrace resolver funn fuel argc argv tf w in
   walk_end res.1 /\
   w_cga res.2 = w_cga w /\ w_tfs res.2 = w_tfs w /\
   exists es, w_out res.2 = w_out w ++ es).
Proof.
  intros Hres. split; [|split].
  - destruct (help_loop_run command_info w) as (es & Hrun).
    exists (add_out es w). split; [|apply add_out_fields].
    unfold mon_help. rewrite (bind_val _ _ _ _ _ Hrun). reflexivity.
  - destruct (mon_kerninfo_run s e t d n k r argc argv tf w) as (es & ->).
    eexists. split; [reflexivity | apply add_out_fields].
  - cbv zeta. split.
    + rewrite mon_backtrace_unfold. unfold bind.
      pose proof (backtrace_loop_ends resolver fuel Hres (w_ebp w) funn
                    (add_out [Cprintf ("Stack backtrace:" ++ nl) []] w)) as He.
      destruct (backtrace_loop resolver fuel (w_ebp w) funn _) as [[u | st] w1];
        [exact I | exact He].
    + assert (Ho : output_only (mon_backtrace resolver funn fuel argc argv tf)).
      { unfold mon_backtrace.
        auto 10 using output_only_backtrace_loop with frame. }
      destruct (Ho w) as (es & ->). apply add_out_fields.
Qed.

Lemma inspection_commands_only_print_witness :
  (exists w', mon_help 1 [lit "backtrace"] 0 stack_world = (Val 0, w') /\
              w_cga w' = w_cga stack_world /\ w_tfs w' = w_tfs stack_world /\
              exists es, w_out w' = w_out stack_world ++ es) /\
  (exists w', mon_kerninfo 0 0 0 0 0 0 round_up 1 [lit "backtrace"] 0
                           stack_world = (Val 0, w') /\
              w_cga w' = w_cga stack_world /\ w_tfs w' = w_tfs stack_world /\
              exists es, w_out w' = w_out stack_world ++ es) /\
  (let res := mon_backtrace sample_resolver junk 3 1 [lit "backtrace"] 0
                            stack_world in
   walk_end res.1 /\
   w_cga res.2 = w_cga stack_world /\ w_tfs res.2 = w_tfs stack_world /\
   exists es, w_out res.2 = w_out stack_world ++ es).
Proof.
  apply (inspection_commands_only_print sample_resolver junk 0 0 0 0 0 0
           round_up 3 1 _ 0 stack_world).
  exact sample_resolver_fits.
Defined.

(** A computation that changes no trap frame other than the one at [tf],
    and changes that one only if it ends by resuming the interrupted
    program. *)
Definition guards_frames {A} (tf : Z) (m : M A) : Prop :=
  forall w,
    (forall p, p <> tf -> w_tfs (m w).2 !! p = w_tfs w !! p) /\
    ((m w).1 <> Halt Resumed -> w_tfs (m w).2 = w_tfs w).

Lemma guards_frames_output_only {A} tf (m : M A) :
  output_only m -> guards_frames tf m.
Proof. intros Hm w. destruct (Hm w) as (es & ->). split; reflexivity. Qed.

Lemma guards_frames_bind {A B} tf (m : M A) (k : A -> M B) :
  guards_frames tf m -> (forall a, guards_frames tf (k a)) ->
  guards_frames tf (bind m k).
Proof.
  intros Hm Hk w. unfold bind. destruct (Hm w) as [Hm1 Hm2].
  destruct (m w) as [[a | st] w1].
  2:{ split; [exact Hm1|]. simpl in *. intros Hr. apply Hm2.
      intros E. apply Hr. inversion E. reflexivity. }
  simpl in Hm1, Hm2.
  destruct (Hk a w1) as [Hk1 Hk2]. split.
  - intros p Hp. rewrite Hk1, Hm1 by exact Hp. reflexivity.
  - intros Hr. rewrite Hk2, Hm2 by (exact Hr || discriminate). reflexivity.
Qed.

Lemma guards_frames_if {A} tf (b : bool) (m1 m2 : M A) :
  guards_frames tf m1 -> guards_frames tf m2 ->
  guards_frames tf (if b then m1 else m2).
Proof. destruct b; auto. Qed.

Lemma guards_frames_set_CGA tf v : guards_frames tf (set_CGA_COLOR_MASK v).
Proof. intros w. split; reflexivity. Qed.

#[local] Hint Resolve guards_frames_if guards_frames_set_CGA : frame.
#[local] Hint Extern 1 (guards_frames _ (bind _ _)) =>
  apply guards_frames_bind; [|intros] : frame.
#[local] Hint Extern 5 (guards_frames _ _) =>
  apply guards_frames_output_only : frame.

Lemma guards_frames_mon_chcolor tf argc argv :
  guards_frames tf (mon_chcolor argc argv tf).
Proof. unfold mon_chcolor. auto 10 with frame. Qed.

Lemma guards_frames_mon_si FL_TF tf argc argv :
  guards_frames tf (mon_si FL_TF argc argv tf).
Proof.
  intros w. destruct (Z.eq_dec tf 0) as [-> | Hnz].
  - split; reflexivity.
  - destruct (w_tfs w !! tf) as [t|] eqn:Ht.
    + rewrite (mon_si_run FL_TF argc argv tf w t Hnz Ht). simpl. split.
      * intros p Hp. apply lookup_insert_ne. congruence.
      * intros Hr. contradiction.
    + unfold mon_si. apply Z.eqb_neq in Hnz. rewrite Hnz.
      unfold bind, cprintf, emit, load_tf. simpl. rewrite Ht. simpl.
      split; reflexivity.
Qed.

Lemma guards_frames_mon_continue FL_TF tf argc argv :
  guards_frames tf (mon_continue FL_TF argc argv tf).
Proof.
  intros w. destruct (Z.eq_dec tf 0) as [-> | Hnz].
  - split; reflexivity.
  - destruct (w_tfs w !! tf) as [t|] eqn:Ht.
    + rewrite (mon_continue_run FL_TF argc argv tf w t Hnz Ht). simpl. split.
      * intros p Hp. apply lookup_insert_ne. congruence.
      * intros Hr. contradiction.
    + unfold mon_continue. apply Z.eqb_neq in Hnz. rewrite Hnz.
      unfold bind, load_tf. rewrite Ht. simpl. split; reflexivity.
Qed.

Lemma guards_frames_dispatch tf cmds argc argv :
  Forall (fun c => forall argc argv, guards_frames tf (func c argc argv tf)) cmds ->
  guards_frames tf (dispatch cmds argc argv tf).
Proof.
  induction 1 as [|c cmds Hc _ IH]; simpl; auto 10 with frame.
Qed.

Lemma guards_frames_runcmd FL_TF resolver funn s e t d n k r fuel buf tf :
  guards_frames tf (runcmd FL_TF resolver funn s e t d n k r fuel buf tf).
Proof.
  unfold runcmd, runcmd_with.
  destruct (runcmd_argv buf) as [argv|]; [|auto with frame].
  apply guards_frames_if; [auto with frame|].
  apply guards_frames_dispatch. unfold commands.
  repeat first [apply List.Forall_nil | apply List.Forall_cons];
    intros argc' argv'; cbn [func].
  - apply guards_frames_output_only.
    apply (output_only_bind _ _ (output_only_help_loop _)). auto with frame.
  - apply guards_frames_output_only. unfold mon_kerninfo. auto 20 with frame.
  - apply guards_frames_output_only. unfold mon_backtrace.
    auto 10 using output_only_backtrace_loop with frame.
  - apply guards_frames_mon_chcolor.
  - apply guards_frames_mon_continue.
  - apply guards_frames_mon_si.
Qed.

(** X9: with a resolver whose reported name lengths all fit [funn],
    whatever the line, [runcmd] never changes a trap frame other than
    the one its [tf] points to, and it changes that one only when it ends
    by resuming the interrupted program: after a command that returns,
    faults or is still running, every trap frame is as it was. *)
Theorem runcmd_keeps_frame
        FL_TF resolver funn s e t d n k r fuel buf tf w :
  (forall eip, name_fits (resolver eip)) ->
  let res := runcmd FL_TF resolver funn s e t d n k r fuel buf tf w in
  (forall p, p <> tf -> w_tfs res.2 !! p = w_tfs w !! p) /\
  (res.1 <> Halt Resumed -> w_tfs res.2 = w_tfs w).
Proof. intros _. apply guards_frames_runcmd. Qed.

Lemma runcmd_keeps_frame_witness :
  let res := runcmd 256 sample_resolver junk 0 0 0 0 0 0 round_up 8
                    (lit "si") 4096 bp_world in
  (forall p, p <> 4096 -> w_tfs res.2 !! p = w_tfs bp_world !! p) /\
  (res.1 <> Halt Resumed -> w_tfs res.2 = w_tfs bp_world).
Proof.
  apply (runcmd_keeps_frame 256 sample_resolver junk 0 0 0 0 0 0 round_up 8
           (lit "si") 4096 bp_world).
  exact sample_resolver_fits.
Defined.

(** ** The display attribute, again *)

(** The six colour bits of an attribute word: foreground in bits 8-10,
    background in bits 12-14. *)
Definition CGA_COLOR_BITS : Z := 0x7700.

Lemma chcolor_two_chars cmd c0 c1 tf w :
  Z.land (w_cga (mon_chcolor 2 [cmd; [c0; c1]] tf w).2) (Z.lnot CGA_COLOR_BITS) = 0.
Proof.
  unfold mon_chcolor, bind, argv_get, char_at, ret. simpl.
  destruct (char_eqb c0 "r"), (char_eqb c0 "g"), (char_eqb c0 "b"),
    (char_eqb c0 "w"), (char_eqb c1 "r"), (char_eqb c1 "g"),
    (char_eqb c1 "b"), (char_eqb c1 "w"); reflexivity.
Qed.

(** X10: whatever its arguments, [chcolor] either leaves
    [CGA_COLOR_MASK] as it was or stores a value made of colour bits
    only: the character byte of the mask stays zero, and neither the
    blink bit nor the intensity bit is ever set. *)
Theorem chcolor_stores_colour_bits_only argc argv tf w :
  let v := w_cga (mon_chcolor argc argv tf w).2 in
  v = w_cga w \/ Z.land v (Z.lnot CGA_COLOR_BITS) = 0.
Proof.
  intros v. subst v.
  destruct (Z.eq_dec argc 2) as [-> | Hne].
  - destruct argv as [|cmd [|a1 rest]]; [left; reflexivity ..|].
    destruct (Z.of_nat (length a1) =? 2) eqn:E.
    2:{ left. unfold mon_chcolor, bind, argv_get, ret. simpl. rewrite E.
        reflexivity. }
    apply Z.eqb_eq in E.
    destruct a1 as [|c0 [|c1 [|c2 a1]]]; try (simpl in E; lia).
    right.
    replace (mon_chcolor 2 (cmd :: [c0; c1] :: rest) tf w)
      with (mon_chcolor 2 [cmd; [c0; c1]] tf w) by reflexivity.
    apply chcolor_two_chars.
  - left. unfold mon_chcolor.
    replace (argc =? 2) with false by (symmetry; apply Z.eqb_neq; exact Hne).
    reflexivity.
Qed.

(** ** Single-stepping, then continuing *)

Lemma continue_after_si_flags e F :
  wrap32 (Z.land (wrap32 (Z.lor e F)) (Z.lnot F)) = wrap32 (Z.land e (Z.lnot F)).
Proof.
  apply Z.bits_inj'. intros n Hn.
  rewrite !wrap32_testbit, !Z.land_spec, wrap32_testbit, Z.lor_spec,
    Z.lnot_spec by lia.
  destruct (Z.testbit e n), (Z.testbit F n), (n <? 32); reflexivity.
Qed.

Lemma clear_absent_flag e F :
  0 <= e < 2 ^ 32 -> Z.land e F = 0 -> wrap32 (Z.land e (Z.lnot F)) = e.
Proof.
  intros He Hclear. apply Z.bits_inj'. intros n Hn.
  rewrite wrap32_testbit, Z.land_spec, Z.lnot_spec by lia.
  pose proof (f_equal (fun x => Z.testbit x n) Hclear) as Hb. simpl in Hb.
  rewrite Z.land_spec, Z.bits_0 in Hb.
  destruct (n <? 32) eqn:E.
  - destruct (Z.testbit e n), (Z.testbit F n); try reflexivity; discriminate.
  - rewrite (testbit_above_32 e n) by lia. reflexivity.
Qed.

Lemma set_tf_eflags_twice v v' t :
  set_tf_eflags v (set_tf_eflags v' t) = set_tf_eflags v t.
Proof. reflexivity. Qed.

Lemma set_tf_eflags_same t : set_tf_eflags (tf_eflags t) t = t.
Proof. destruct t. reflexivity. Qed.

(** X11: a context released by [si] and, when it comes back, released by
    [continue] ends up exactly as if [continue] had been given it
    directly; and if its single-step bit was clear to begin with, the
    trap-frame store is back to what it was before the [si]. *)
Theorem continue_undoes_si FL_TF argc argv argc' argv' tf w t :
  tf <> 0 -> w_tfs w !! tf = Some t ->
  let w1 := (mon_si FL_TF argc argv tf w).2 in
  let w2 := (mon_continue FL_TF argc' argv' tf w1).2 in
  w_tfs w2 = w_tfs (mon_continue FL_TF argc' argv' tf w).2 /\
  (0 <= tf_eflags t < 2 ^ 32 -> Z.land (tf_eflags t) FL_TF = 0 ->
   w_tfs w2 = w_tfs w).
Proof.
  intros Hnz Ht w1 w2. subst w1 w2.
  rewrite (mon_si_run FL_TF argc argv tf w t Hnz Ht). cbv zeta. simpl snd.
  erewrite (mon_continue_run FL_TF argc' argv' tf (add_out _ (set_tf tf _ w)))
    by (try exact Hnz; simpl; apply lookup_insert_eq).
  rewrite (mon_continue_run FL_TF argc' argv' tf w t Hnz Ht).
  cbv zeta. simpl. rewrite insert_insert_eq.
  rewrite continue_after_si_flags. split; [reflexivity|].
  intros He Hclear. rewrite clear_absent_flag by assumption.
  rewrite set_tf_eflags_twice, set_tf_eflags_same. apply insert_id, Ht.
Qed.

Lemma continue_undoes_si_witness :
  let w1 := (mon_si 256 1 [lit "si"] 4096 bp_world).2 in
  let w2 := (mon_continue 256 1 [lit "continue"] 4096 w1).2 in
  w_tfs w2 = w_tfs (mon_continue 256 1 [lit "continue"] 4096 bp_world).2 /\
  (0 <= tf_eflags bp_frame < 2 ^ 32 -> Z.land (tf_eflags bp_frame) 256 = 0 ->
   w_tfs w2 = w_tfs bp_world).
Proof.
  apply (continue_undoes_si 256 1 [lit "si"] 1 [lit "continue"] 4096 bp_world
           bp_frame).
  - lia.
  - reflexivity.
Defined.

(** ** The backtrace on bad input *)

(** X12: when the chain leads, after some well-formed frames, to a
    non-zero frame pointer whose return-address slot cannot be read,
    [backtrace] has printed the records of the frames before it and then
    faults on that slot; no check keeps it from following the pointer. *)
Theorem backtrace_faults_on_unreadable_frame
        debuginfo_eip funn_junk fuel argc argv tf w fs stop :
  frame_path (w_mem w) (w_ebp w) fs stop ->
  Forall (fun f => name_fits (debuginfo_eip (fr_eip f))) fs ->
  stop <> 0 ->
  w_mem w !! wrap32 (stop + 4) = None ->
  mon_backtrace debuginfo_eip funn_junk (length fs + S fuel) argc argv tf w =
  (Halt (Faulted (PageFault (wrap32 (stop + 4)))),
   add_out (Cprintf ("Stack backtrace:" ++ nl) []
            :: frame_records debuginfo_eip fs) w).
Proof.
  intros Hp Hfit Hnz Hnone. rewrite mon_backtrace_unfold.
  destruct (backtrace_loop_path debuginfo_eip fs (S fuel) (w_ebp w) stop
              funn_junk (add_out [Cprintf ("Stack backtrace:" ++ nl) []] w)
              Hp Hfit) as (funn' & Hwalk).
  apply bind_halt. rewrite Hwalk, add_out_app. simpl app.
  simpl backtrace_loop. apply Z.eqb_neq in Hnz. rewrite Hnz.
  apply bind_halt. unfold load32. simpl w_mem. rewrite Hnone. reflexivity.
Qed.

(** The stack of [stack_world] with the outer frame's saved frame pointer
    replaced by a stray address. *)
Definition stray_frame : Frame :=
  {| fr_ebp := 0xf010ff38; fr_eip := 0xf010003e;
     fr_arg1 := 0x00111021; fr_arg2 := 0; fr_arg3 := 0; fr_arg4 := 0;
     fr_arg5 := 0; fr_caller := 0xdeadbeef |}.

Definition stray_world : World :=
  {| w_out := []; w_cga := 1792; w_tfs := ∅;
     w_mem := list_to_map (frame_words inner_frame ++ frame_words stray_frame);
     w_ebp := 0xf010ff18 |}.

Lemma backtrace_faults_on_unreadable_frame_witness :
  mon_backtrace sample_resolver junk (2 + 1) 1 [lit "backtrace"] 0 stray_world =
  (Halt (Faulted (PageFault (wrap32 (0xdeadbeef + 4)))),
   add_out (Cprintf ("Stack backtrace:" ++ nl) []
            :: frame_records sample_resolver [inner_frame; stray_frame])
           stray_world).
Proof.
  apply (backtrace_faults_on_unreadable_frame sample_resolver junk 0 1
           [lit "backtrace"] 0 stray_world [inner_frame; stray_frame]
           0xdeadbeef).
  - vm_compute. repeat split; discriminate.
  - repeat constructor; vm_compute; discriminate.
  - discriminate.
  - reflexivity.
Defined.

Lemma funn_write_negative funn i c w :
  i < 0 -> funn_write funn i c w = (Halt (Faulted (OobWrite "funn" i)), w).
Proof.
  intros Hi. unfold funn_write.
  replace (0 <=? i) with false by (symmetry; apply Z.leb_gt; exact Hi).
  reflexivity.
Qed.

(** X13: a negative name length reported by the resolver is not rejected
    either: the copy loop does not run, and the terminating NUL is stored
    at that negative index, in front of [funn]. *)
Theorem backtrace_negative_name_length
        debuginfo_eip funn_junk fuel argc argv tf w eip :
  w_ebp w <> 0 ->
  w_mem w !! wrap32 (w_ebp w + 4) = Some eip ->
  eip_fn_namelen (debuginfo_eip eip) < 0 ->
  mon_backtrace debuginfo_eip funn_junk (S fuel) argc argv tf w =
  (Halt (Faulted (OobWrite "funn" (eip_fn_namelen (debuginfo_eip eip)))),
   add_out [Cprintf ("Stack backtrace:" ++ nl) []] w).
Proof.
  intros Hnz Heip Hneg. rewrite mon_backtrace_unfold.
  apply bind_halt. simpl backtrace_loop.
  apply Z.eqb_neq in Hnz. rewrite Hnz.
  rewrite (bind_val _ _ _ _ _ (load32_run _ _ (add_out _ w) Heip)).
  replace (Z.to_nat (eip_fn_namelen (debuginfo_eip eip))) with 0%nat by lia.
  simpl copy_name. unfold ret at 1. unfold bind at 1.
  apply bind_halt. apply funn_write_negative, Hneg.
Qed.

(** A resolver that reports a negative name length. *)
Definition negative_length_resolver (addr : Z) : Eipdebuginfo :=
  {| eip_file := lit "<unknown>"; eip_line := 0;
     eip_fn_name := lit "<unknown>"; eip_fn_namelen := -1;
     eip_fn_addr := addr |}.

Lemma backtrace_negative_name_length_witness :
  mon_backtrace negative_length_resolver junk 3 1 [lit "backtrace"] 0
                stack_world =
  (Halt (Faulted (OobWrite "funn" (-1))),
   add_out [Cprintf ("Stack backtrace:" ++ nl) []] stack_world).
Proof.
  apply (backtrace_negative_name_length negative_length_resolver junk 2 1
           [lit "backtrace"] 0 stack_world 0xf0100068).
  - discriminate.
  - reflexivity.
  - reflexivity.
Defined.

(** X14: for a name length that fits, the three steps of [mon_backtrace]
    on [funn] (the copy loop, the terminating store, the read for [%s])
    deliver exactly the first [eip_fn_namelen] characters of the
    resolver's name, whatever [funn] held before; what follows them in
    the resolver's string is cut off. *)
Theorem funn_holds_name_prefix info funn w :
  name_fits info ->
  NUL ∉ eip_fn_name info ->
  exists funn1 funn2,
    copy_name (Z.to_nat (eip_fn_namelen info)) 0 (eip_fn_name info) funn w
      = (Val funn1, w) /\
    funn_write funn1 (eip_fn_namelen info) NUL w = (Val funn2, w) /\
    funn_string funn2 w =
      (Val (take (Z.to_nat (eip_fn_namelen info)) (eip_fn_name info)), w).
Proof.
  intros Hfit Hnul.
  destruct (funn_filled info funn w Hfit) as (funn1 & funn2 & Hc & Hw & Hs).
  exists funn1, funn2. split; [exact Hc|]. split; [apply Hw|].
  rewrite Hs, shown_name_prefix by exact Hnul. reflexivity.
Qed.

Lemma funn_holds_name_prefix_witness :
  exists funn1 funn2,
    copy_name 14 0 (lit "test_backtrace:F(0,1)") junk stack_world
      = (Val funn1, stack_world) /\
    funn_write funn1 14 NUL stack_world = (Val funn2, stack_world) /\
    funn_string funn2 stack_world = (Val (lit "test_backtrace"), stack_world).
Proof.
  apply (funn_holds_name_prefix (sample_resolver 0xf0100068) junk stack_world).
  - vm_compute. repeat split; discriminate.
  - no_NUL.
Defined.

(** * The console loop *)

Section Console.

Variable FL_TF : Z.
Variable debuginfo_eip : Z -> Eipdebuginfo.
Variable funn_junk : nat -> ascii.
Variables _start entry etext edata end_ KERNBASE : Z.
Variable ROUNDUP : Z -> Z -> Z.

(** The external [print_trapframe] (kern/trap.c). *)
Variable print_trapframe : Z -> M unit.

(** The external line reader: what the [k]-th call of [readline(prompt)]
    does and returns, [None] standing for a NULL result; the buffer it
    returns is handed to [runcmd] as it is. *)
Variable readline : nat -> string -> M (option (list ascii)).

(** The [while (1)] loop of [monitor], about to make its [k]-th call of
    [readline]; [fuel] bounds the number of turns, [walk_fuel] is the
    bound handed to [mon_backtrace]. *)
Fixpoint monitor_loop (walk_fuel fuel k : nat) (tf : Z) : M unit :=
  match fuel with
  | O => halt OutOfFuel
  | S fuel' =>
      do buf <- readline k "K> ";
      match buf with
      | Some b =>
          do r <- runcmd FL_TF debuginfo_eip funn_junk _start entry etext
                         edata end_ KERNBASE ROUNDUP walk_fuel b tf;
          if r <? 0 then ret tt
          else monitor_loop walk_fuel fuel' (S k) tf
      | None => monitor_loop walk_fuel fuel' (S k) tf
      end
  end.

Definition monitor (walk_fuel fuel : nat) (tf : Z) : M unit :=
  cprintf ("Welcome to the JOS kernel monitor!" ++ nl) [];;
  cprintf ("Type 'help' for a list of commands." ++ nl) [];;
  (if negb (tf =? 0) then print_trapframe tf else ret tt);;
  monitor_loop walk_fuel fuel 0 tf.

End Console.

Lemma monitor_loop_no_return
      FL_TF resolver funn s e t d n k r readline walk_fuel fuel :
  forall i tf w u w',
    monitor_loop FL_TF resolver funn s e t d n k r readline walk_fuel fuel i tf w
    <> (Val u, w').
Proof.
  induction fuel as [|fuel IH]; intros i tf w u w' H; [discriminate|].
  simpl in H. inv_bind H buf w1 Hread.
  destruct buf as [b|]; [|eapply IH, H].
  inv_bind H st w2 Hrun.
  apply runcmd_returns_zero in Hrun. subst st.
  simpl in H. eapply IH, H.
Qed.

(** X15: the console never ends by itself.  Whatever lines are read and
    whatever the state, [monitor] does not return: since no command
    hands back a negative status, its loop is left only when a command
    resumes the interrupted program or the machine faults. *)
Theorem monitor_never_returns
        FL_TF resolver funn s e t d n k r print_trapframe readline
        walk_fuel fuel tf w :
  match (monitor FL_TF resolver funn s e t d n k r print_trapframe readline
                 walk_fuel fuel tf w).1 with
  | Val _ => False
  | Halt _ => True
  end.
Proof.
  destruct (monitor FL_TF resolver funn s e t d n k r print_trapframe readline
                    walk_fuel fuel tf w) as [[u | st] w'] eqn:H; [|exact I].
  unfold monitor in H.
  inv_bind H u1 w1 H1. inv_bind H u2 w2 H2. inv_bind H u3 w3 H3.
  eapply monitor_loop_no_return, H.
Qed.

(** X16: a line whose command returns, whatever the command and whatever
    it printed, does not end the session: the loop goes on to its next
    call of [readline] in the state the command left. *)
Theorem monitor_loop_goes_on
        FL_TF resolver funn s e t d n k r readline walk_fuel fuel i tf
        w b w1 status w2 :
  readline i "K> "%string w = (Val (Some b), w1) ->
  runcmd FL_TF resolver funn s e t d n k r walk_fuel b tf w1 = (Val status, w2) ->
  monitor_loop FL_TF resolver funn s e t d n k r readline walk_fuel
               (S fuel) i tf w =
  monitor_loop FL_TF resolver funn s e t d n k r readline walk_fuel
               fuel (S i) tf w2.
Proof.
  intros Hread Hrun.
  simpl. rewrite (bind_val _ _ _ _ _ Hread), (bind_val _ _ _ _ _ Hrun).
  apply runcmd_returns_zero in Hrun. subst status. reflexivity.
Qed.

(** A line reader that reads an unknown command, then a blank line, then
    keeps getting NULL. *)
Definition sample_readline (i : nat) (prompt : string)
  : M (option (list ascii)) :=
  ret (match i with
       | O => Some (lit "frobnicate")
       | 1%nat => Some (lit "   ")
       | _ => None
       end).

Lemma monitor_loop_goes_on_witness :
  monitor_loop 256 sample_resolver junk 0 0 0 0 0 0 round_up sample_readline
               8 (S 5) 0 0 stack_world =
  monitor_loop 256 sample_resolver junk 0 0 0 0 0 0 round_up sample_readline
               8 5 1 0
               (add_out [Cprintf ("Unknown command '%s'" ++ nl)
                                 [AStr (lit "frobnicate")]] stack_world).
Proof.
  apply (monitor_loop_goes_on 256 sample_resolver junk 0 0 0 0 0 0 round_up
           sample_readline 8 5 0 0 stack_world (lit "frobnicate") stack_world 0).
  - reflexivity.
  - reflexivity.
Defined.

Example monitor_session :
  monitor 256 sample_resolver junk 0 0 0 0 0 0 round_up (fun _ => ret tt)
          sample_readline 8 4 0 stack_world =
  (Halt OutOfFuel,
   add_out [Cprintf ("Welcome to the JOS kernel monitor!" ++ nl) [];
            Cprintf ("Type 'help' for a list of commands." ++ nl) [];
            Cprintf ("Unknown command '%s'" ++ nl) [AStr (lit "frobnicate")]]
           stack_world).
Proof. reflexivity. Qed.

(** * The command list and the argument limit *)

(** The line [help] prints for a command. *)
Definition help_line (c : Command) : Event :=
  Cprintf ("%s - %s" ++ nl) [AStr (lit (name c)); AStr (lit (desc c))].

Lemma help_loop_lines cs w :
  help_loop cs w =
  (Val tt,
   add_out (map (fun nd => Cprintf ("%s - %s" ++ nl)
                                   [AStr (lit nd.1); AStr (lit nd.2)]) cs) w).
Proof.
  revert w. induction cs as [|[nm ds] cs IH]; intros w.
  - simpl. rewrite add_out_nil. reflexivity.
  - simpl help_loop. rewrite (bind_val _ _ _ _ _ (cprintf_run _ _ _)).
    rewrite IH, add_out_app. reflexivity.
Qed.

(** X17: [help] prints one line for every entry of the command table, in
    table order and with the entry's own name and description, returns 0
    and does nothing else; it does not matter what arguments or context
    it is given. *)
Theorem help_lists_the_command_table
        FL_TF resolver funn s e t d n k r fuel argc argv tf w :
  mon_help argc argv tf w =
  (Val 0,
   add_out (map help_line (commands FL_TF resolver funn s e t d n k r fuel)) w).
Proof.
  unfold mon_help. rewrite (bind_val _ _ _ _ _ (help_loop_lines _ _)).
  reflexivity.
Qed.

(** X18: a line is turned away as having too many arguments exactly when
    it has MAXARGS = 16 or more tokens: fifteen are the most [runcmd]
    accepts, one fewer than the number its message gives as the
    maximum. *)
Theorem runcmd_rejects_from_sixteen_tokens line :
  NUL ∉ line ->
  (runcmd_argv line = None <-> MAXARGS <= Z.of_nat (length (tokens line))).
Proof.
  intros Hnul. rewrite runcmd_argv_spec by exact Hnul.
  destruct (Z.leb_spec (Z.of_nat (length (tokens line))) (MAXARGS - 1));
    split; intros H'; try discriminate; try reflexivity; lia.
Qed.

Lemma runcmd_rejects_from_sixteen_tokens_witness :
  runcmd_argv (lit "a b c d e f g h i j k l m n o p") = None <->
  MAXARGS <= Z.of_nat (length (tokens (lit "a b c d e f g h i j k l m n o p"))).
Proof.
  apply (runcmd_rejects_from_sixteen_tokens
           (lit "a b c d e f g h i j k l m n o p")).
  no_NUL.
Defined.
